(** * background.js: roster fetch, RAP aggregation, bounded pool, ranking

    A shallow embedding of the service worker of the Roblox wealth
    extension ([background.js]) and a verification of its specification.

    The data:
    - numbers are [Z] (user ids, prices, RAP totals), [N] (HTTP status) or
      [nat] (lengths, the pool limit); strings are [string]; a property
      that is absent, [null] or [undefined] is [None];
    - [rapResults], an object used as a map from user id to score, is a
      [gmap Z Z];
    - [chrome.storage.local] is a record of the two keys the worker uses;
      a [set] on it takes effect at once and does not fail.

    The effects:
    - [fetch] is an oracle ([Upstream]) that, for an identifier and a
      cursor, either rejects (the source is unreachable) or responds with
      [ok], [status] and a JSON body; every call is logged by its URL;
    - a JS [Error] is its message; a raised exception or a rejected promise
      is the [Throw] outcome; [console.warn] is not modelled;
    - the [while (true)] loops take a fuel argument and are [Pending] when
      it runs out;
    - a call of [asyncPool] is a transition system: a state holds the
      promises of [ret], the array [executing] and the point where the body
      of [asyncPool] stands; an event is one job of the event loop; a
      schedule is the list of the jobs run, in order. A task takes its
      effect on the state shared by the tasks when it settles. Every
      interleaving of JavaScript is a schedule; the model also has schedules
      that run a callback earlier than the microtask queue would. *)

From stdpp Require Import base numbers list strings gmap pretty.
From Stdlib Require Import Sorting.Sorted Sorting.Permutation.
From Stdlib Require Import Ascii.

Open Scope string_scope.
Open Scope Z_scope.
Open Scope list_scope.

(** ** Results of asynchronous calls *)

(** What awaiting a call gives: a value, a raised error (its message), or
    nothing yet. *)
Inductive outcome (A : Type) : Type :=
  | Return (a : A)
  | Throw (message : string)
  | Pending.
Arguments Return {A} a.
Arguments Throw {A} message.
Arguments Pending {A}.

(** ** The environment: upstream sources, storage, network log *)

(** One page of a paginated collection: [{ data, nextPageCursor }]. *)
Record Page (T : Type) : Type := mkPage {
  data : option (list T);
  nextPageCursor : option string
}.
Arguments mkPage {T} data nextPageCursor.
Arguments data {T} p.
Arguments nextPageCursor {T} p.

(** A [Response]: [res.ok], [res.status], and what [res.json()] gives
    ([None] when the body does not parse, in which case it rejects). *)
Record Response (T : Type) : Type := mkResponse {
  ok : bool;
  status : N;
  json : option (Page T)
}.
Arguments mkResponse {T} ok status json.
Arguments ok {T} r.
Arguments status {T} r.
Arguments json {T} r.

(** [await fetch(url)]: a rejection (the source is unreachable) or a
    response. *)
Inductive fetched (T : Type) : Type :=
  | Rejects (message : string)
  | Responds (r : Response T).
Arguments Rejects {T} message.
Arguments Responds {T} r.

(** [entry.user] of a roster page entry. *)
Record User : Type := mkUser { user_userId : Z; user_username : string }.
Record RosterEntry : Type := mkRosterEntry { user : User }.

(** An element of a collectibles page. *)
Record Collectible : Type := mkCollectible { recentAveragePrice : option Z }.

(** The two upstream sources, by identifier and cursor. *)
Record Upstream : Type := mkUpstream {
  groups_users : string -> string -> fetched RosterEntry;
  collectibles : Z -> string -> fetched Collectible
}.

(** [{ userId, username }], as pushed by [fetchAllMembers]. *)
Record Member : Type := mkMember { userId : Z; username : string }.

(** [{ username, rap }], as built by [processCommunity]. *)
Record Ranked : Type := mkRanked { r_username : string; rap : Z }.

(** [chrome.storage.local], with the two keys the worker uses. *)
Record Storage : Type := mkStorage {
  lastCommunityId : option string;
  lastResults : option (list Ranked)
}.

(** The mutable world: the storage area, the number of [set] calls made on
    it, and the URLs fetched so far (latest last). A fetcher adds its URLs
    in the order it requests them. A fetcher that runs as a task of the
    pool takes effect as a whole when the task settles: across tasks the
    list follows the order of settlement, not the order in which the
    requests left. The statements below read off it the requests of one
    fetcher run, or that a run made none, never the order across tasks. *)
Record World : Type := mkWorld {
  storage : Storage;
  writes : nat;
  netlog : list string
}.

Definition log_fetch (url : string) (w : World) : World :=
  {| storage := storage w; writes := writes w; netlog := netlog w ++ [url] |}.

(** [chrome.storage.local.set({ lastCommunityId, lastResults })] *)
Definition storage_set (communityId : string) (ranked : list Ranked) (w : World) : World :=
  {| storage := {| lastCommunityId := Some communityId; lastResults := Some ranked |};
     writes := S (writes w);
     netlog := netlog w |}.

(** ** Constants *)

Definition LIMITED_THRESHOLD : Z := 10000.
Definition CONCURRENCY_LIMIT : nat := 15.

(** ** JavaScript coercions used by the worker *)

(** [!cursor] is false exactly for a non-empty string. *)
Definition truthy (s : option string) : bool :=
  match s with
  | Some c => negb (String.eqb c "")
  | None => false
  end.

(** [x || 0] on an optional number. *)
Definition or_zero (x : option Z) : Z :=
  match x with
  | Some z => z
  | None => 0
  end.

(** [x || []] on an optional array. *)
Definition or_empty {T : Type} (x : option (list T)) : list T :=
  match x with
  | Some l => l
  | None => []
  end.

(** ** URLs *)

Definition members_url (communityId cursor : string) : string :=
  "https://groups.roblox.com/v1/groups/" +:+ communityId +:+
  "/users?limit=" +:+ pretty (100%N) +:+ "&sortOrder=Asc&cursor=" +:+ cursor.

Definition collectibles_url (userId : Z) (cursor : string) : string :=
  "https://inventory.roblox.com/v1/users/" +:+ pretty userId +:+
  "/assets/collectibles?limit=" +:+ pretty (100%N) +:+ "&sortOrder=Asc&cursor=" +:+ cursor.

(** ** fetchAllMembers *)

Definition member_of_entry (entry : RosterEntry) : Member :=
  {| userId := user_userId (user entry); username := user_username (user entry) |}.

(** The [while (true)] loop of [fetchAllMembers], from the state
    [(members, cursor)]. *)
Fixpoint fetchAllMembers_loop (up : Upstream) (fuel : nat) (communityId : string)
    (members : list Member) (cursor : string) (w : World) : outcome (list Member) * World :=
  match fuel with
  | O => (Pending, w)
  | S fuel' =>
    let url := members_url communityId cursor in
    let w1 := log_fetch url w in
    match groups_users up communityId cursor with
    | Rejects e => (Throw e, w1)
    | Responds res =>
      if negb (ok res) then
        (Throw ("Failed to fetch members: " +:+ pretty (status res)), w1)
      else
        match json res with
        | None => (Throw "Unexpected end of JSON input", w1) (* res.json() rejects *)
        | Some data_ =>
          let members' := members ++ map member_of_entry (or_empty (data data_)) in
          if negb (truthy (nextPageCursor data_)) then (Return members', w1)
          else fetchAllMembers_loop up fuel' communityId members'
                 (default "" (nextPageCursor data_)) w1
        end
    end
  end.

Definition fetchAllMembers (up : Upstream) (fuel : nat) (communityId : string)
    (w : World) : outcome (list Member) * World :=
  fetchAllMembers_loop up fuel communityId [] "" w.

(** ** fetchUserRAP *)

(** The inner [for] loop: add the price of every item at or above the
    threshold. *)
Definition add_page (rap0 : Z) (items : list Collectible) : Z :=
  foldl (fun acc item =>
           let price := or_zero (recentAveragePrice item) in
           if price >=? LIMITED_THRESHOLD then acc + price else acc)
        rap0 items.

(** The [while (true)] loop of [fetchUserRAP], from the state
    [(rap, cursor)]. *)
Fixpoint fetchUserRAP_loop (up : Upstream) (fuel : nat) (uid : Z)
    (rap0 : Z) (cursor : string) (w : World) : outcome Z * World :=
  match fuel with
  | O => (Pending, w)
  | S fuel' =>
    let url := collectibles_url uid cursor in
    let w1 := log_fetch url w in
    match collectibles up uid cursor with
    | Rejects e => (Throw e, w1)
    | Responds res =>
      if negb (ok res) then (Return rap0, w1)
      else
        match json res with
        | None => (Throw "Unexpected end of JSON input", w1) (* res.json() rejects *)
        | Some data_ =>
          let rap1 := add_page rap0 (or_empty (data data_)) in
          if negb (truthy (nextPageCursor data_)) then (Return rap1, w1)
          else fetchUserRAP_loop up fuel' uid rap1
                 (default "" (nextPageCursor data_)) w1
        end
    end
  end.

Definition fetchUserRAP (up : Upstream) (fuel : nat) (uid : Z) (w : World) : outcome Z * World :=
  fetchUserRAP_loop up fuel uid 0 "" w.

(** ** asyncPool *)

(** [array.indexOf(x)]: the first position holding [x], or [-1]. *)
Fixpoint indexOf_from {A : Type} `{EqDecision A} (i : Z) (l : list A) (x : A) : Z :=
  match l with
  | [] => -1
  | y :: l' => if decide (y = x) then i else indexOf_from (i + 1) l' x
  end.

Definition indexOf {A : Type} `{EqDecision A} (l : list A) (x : A) : Z :=
  indexOf_from 0 l x.

(** [array.splice(start, 1)] for the [start] that [indexOf] gives: a
    negative [start] counts from the end. *)
Definition splice1 {A : Type} (start : Z) (l : list A) : list A :=
  let len := Z.of_nat (length l) in
  let from := if start <? 0 then Z.max (len + start) 0 else Z.min start len in
  delete (Z.to_nat from) l.

(** The state of a promise [p] of [ret]: created with its callback still
    in the microtask queue, [iteratorFn] called and not settled, or
    settled. *)
Inductive promise (R : Type) : Type :=
  | Scheduled
  | Running
  | Fulfilled (v : R)
  | Rejected (message : string).
Arguments Scheduled {R}.
Arguments Running {R}.
Arguments Fulfilled {R} v.
Arguments Rejected {R} message.

(** Where the body of [asyncPool] stands: at the head of the [for] loop,
    suspended in [await Promise.race(executing)] (with the promises raced),
    suspended in the [Promise.all(ret)] it returns, or settled. *)
Inductive control (R : Type) : Type :=
  | AtLoop
  | AwaitRace (raced : list nat)
  | AwaitAll
  | Resolved (values : list R)
  | Failed (message : string).
Arguments AtLoop {R}.
Arguments AwaitRace {R} raced.
Arguments AwaitAll {R}.
Arguments Resolved {R} values.
Arguments Failed {R} message.

(** One call of [asyncPool]: [ret] (promise [i] is the one made for
    [array[i]]), [executing] (the promise [e] chained on [ret[i]] is named
    [i]), the control point, and the state the tasks share. *)
Record pool (R St : Type) : Type := mkPool {
  ret : list (promise R);
  executing : list nat;
  pc : control R;
  shared : St
}.
Arguments mkPool {R St} ret executing pc shared.
Arguments ret {R St} p.
Arguments executing {R St} p.
Arguments pc {R St} p.
Arguments shared {R St} p.

(** What the event loop may run next. *)
Inductive event : Type :=
  | Main              (* the body of asyncPool, up to its next await *)
  | Call (i : nat)    (* the callback of ret[i]: iteratorFn(item, indexOf(item)) *)
  | Settle (i : nat)  (* the promise iteratorFn returned for ret[i] settles *)
  | Splice (i : nat)  (* the callback of e: executing.splice(executing.indexOf(e), 1) *)
  | Raise (i : nat).  (* the rejection of ret[i] reaches the pending await *)

Global Instance event_eq_dec : EqDecision event.
Proof. solve_decision. Defined.

Definition is_running {R : Type} (p : promise R) : bool :=
  match p with Running => true | _ => false end.

Definition is_fulfilled {R : Type} (p : promise R) : bool :=
  match p with Fulfilled _ => true | _ => false end.

Definition is_settled {R : Type} (c : control R) : bool :=
  match c with Resolved _ | Failed _ => true | _ => false end.

(** The values of [ret] once all are fulfilled, as [Promise.all] gives
    them. *)
Fixpoint values_of {R : Type} (ps : list (promise R)) : option (list R) :=
  match ps with
  | [] => Some []
  | Fulfilled v :: ps' =>
    match values_of ps' with
    | Some vs => Some (v :: vs)
    | None => None
    end
  | _ :: _ => None
  end.

(** The promise [e] named [i] is fulfilled once [ret[i]] is and its
    callback has removed it from [executing]. *)
Definition e_fulfilled {R : Type} (ps : list (promise R)) (executing : list nat) (i : nat) : bool :=
  match ps !! i with
  | Some (Fulfilled _) => bool_decide (i ∉ executing)
  | _ => false
  end.

Section AsyncPool.
Context {A R St : Type} `{EqDecision A}.
Variable poolLimit : nat.
Variable array : list A.
Variable iteratorFn : A -> Z -> St -> outcome R * St.

(** One pass through the body of the [for] loop, for the item at position
    [ret.length], up to the [await] or to the next iteration. *)
Definition loop_body (s : pool R St) : pool R St :=
  let i := length (ret s) in
  let ret' := ret s ++ [Scheduled] in
  if bool_decide (poolLimit <= length array)%nat then
    let executing' := executing s ++ [i] in
    if bool_decide (poolLimit <= length executing')%nat then
      mkPool ret' executing' (AwaitRace executing') (shared s)
    else
      mkPool ret' executing' AtLoop (shared s)
  else
    mkPool ret' (executing s) AtLoop (shared s).

(** The body of [asyncPool] goes on: from the head of the loop it takes
    the next item, or leaves the loop for [return Promise.all(ret)]; from
    [await Promise.race(executing)] it goes back to the head of the loop
    once one of the promises raced is fulfilled; from [Promise.all(ret)] it
    resolves once all of [ret] are fulfilled. *)
Definition step_main (s : pool R St) : option (pool R St) :=
  match pc s with
  | AtLoop =>
    match array !! length (ret s) with
    | Some _ => Some (loop_body s)
    | None => Some (mkPool (ret s) (executing s) AwaitAll (shared s))
    end
  | AwaitRace raced =>
    if existsb (e_fulfilled (ret s) (executing s)) raced
    then Some (mkPool (ret s) (executing s) AtLoop (shared s))
    else None
  | AwaitAll =>
    match values_of (ret s) with
    | Some vs => Some (mkPool (ret s) (executing s) (Resolved vs) (shared s))
    | None => None
    end
  | Resolved _ | Failed _ => None
  end.

(** The callback given to [Promise.resolve().then] runs: [iteratorFn] is
    called for [array[i]]. *)
Definition step_call (i : nat) (s : pool R St) : option (pool R St) :=
  match ret s !! i with
  | Some Scheduled => Some (mkPool (<[i := Running]> (ret s)) (executing s) (pc s) (shared s))
  | _ => None
  end.

(** The call [iteratorFn(item, array.indexOf(item))] made for [array[i]]
    settles, and [ret[i]] with it; a task that stays pending never does. *)
Definition step_settle (i : nat) (s : pool R St) : option (pool R St) :=
  match ret s !! i, array !! i with
  | Some Running, Some item =>
    match iteratorFn item (indexOf array item) (shared s) with
    | (Return v, σ) => Some (mkPool (<[i := Fulfilled v]> (ret s)) (executing s) (pc s) σ)
    | (Throw e, σ) => Some (mkPool (<[i := Rejected e]> (ret s)) (executing s) (pc s) σ)
    | (Pending, _) => None
    end
  | _, _ => None
  end.

(** The callback of [e = p.then(...)] runs, once [p = ret[i]] is
    fulfilled: [executing.splice(executing.indexOf(e), 1)]. It runs once,
    and after [e] was pushed: while [e] is in [executing]. *)
Definition step_splice (i : nat) (s : pool R St) : option (pool R St) :=
  match ret s !! i with
  | Some (Fulfilled _) =>
    if bool_decide (i ∈ executing s)
    then Some (mkPool (ret s) (splice1 (indexOf (executing s) i) (executing s)) (pc s) (shared s))
    else None
  | _ => None
  end.

(** A rejected [ret[i]] rejects [e], hence the [Promise.race] that has it,
    and it rejects [Promise.all(ret)]: the pending [await] raises and
    [asyncPool] rejects. *)
Definition step_raise (i : nat) (s : pool R St) : option (pool R St) :=
  match ret s !! i with
  | Some (Rejected e) =>
    match pc s with
    | AwaitRace raced =>
      if bool_decide (i ∈ raced)
      then Some (mkPool (ret s) (executing s) (Failed e) (shared s))
      else None
    | AwaitAll => Some (mkPool (ret s) (executing s) (Failed e) (shared s))
    | _ => None
    end
  | _ => None
  end.

Definition step (ev : event) (s : pool R St) : option (pool R St) :=
  match ev with
  | Main => step_main s
  | Call i => step_call i s
  | Settle i => step_settle i s
  | Splice i => step_splice i s
  | Raise i => step_raise i s
  end.

(** Running a schedule; [None] when an event of it cannot happen. *)
Fixpoint exec (sched : list event) (s : pool R St) : option (pool R St) :=
  match sched with
  | [] => Some s
  | ev :: sched' =>
    match step ev s with
    | Some s' => exec sched' s'
    | None => None
    end
  end.

Definition pool_init (σ : St) : pool R St := mkPool [] [] AtLoop σ.

(** The number of tasks started and not yet completed. *)
Definition in_flight (s : pool R St) : nat :=
  length (filter (fun p => is_running p = true) (ret s)).

(** What [await asyncPool(poolLimit, array, iteratorFn)] gives under a
    schedule, with the shared state it leaves. *)
Definition asyncPool (sched : list event) (σ : St) : outcome (list R) * St :=
  match exec sched (pool_init σ) with
  | Some s =>
    match pc s with
    | Resolved vs => (Return vs, shared s)
    | Failed e => (Throw e, shared s)
    | _ => (Pending, shared s)
    end
  | None => (Pending, σ)
  end.

End AsyncPool.

(** ** processCommunity *)

Global Instance Member_eq_dec : EqDecision Member.
Proof. solve_decision. Defined.

(** [Array.prototype.sort(cmp)]: a stable sort, here by insertion; [x]
    goes before the first element it does not have to follow. *)
Fixpoint sort_insert {T : Type} (cmp : T -> T -> Z) (x : T) (l : list T) : list T :=
  match l with
  | [] => [x]
  | y :: l' => if cmp x y <=? 0 then x :: l else y :: sort_insert cmp x l'
  end.

Definition js_sort {T : Type} (cmp : T -> T -> Z) (l : list T) : list T :=
  foldr (sort_insert cmp) [] l.

(** [(a, b) => b.rap - a.rap] *)
Definition by_rap_desc (a b : Ranked) : Z := rap b - rap a.

(** [(m) => ({ username: m.username, rap: rapResults[m.userId] || 0 })] *)
Definition rank_entry (rapResults : gmap Z Z) (m : Member) : Ranked :=
  {| r_username := username m; rap := or_zero (rapResults !! userId m) |}.

(** The task given to [asyncPool]:
    [async (member) => { const rap = await fetchUserRAP(member.userId);
                         rapResults[member.userId] = rap; }].
    The state shared by the tasks is [rapResults] and the world; the task
    takes effect on it when it settles: its score is recorded then, as in
    the code, and its requests are logged then, as one block, though the
    code sends the first of them when the task is called. *)
Definition rap_task (up : Upstream) (fuel : nat) (member : Member) (index : Z)
    (σ : gmap Z Z * World) : outcome unit * (gmap Z Z * World) :=
  match fetchUserRAP up fuel (userId member) σ.2 with
  | (Return rap_, w') => (Return tt, (<[userId member := rap_]> σ.1, w'))
  | (Throw e, w') => (Throw e, (σ.1, w'))
  | (Pending, w') => (Pending, (σ.1, w'))
  end.

(** [processCommunity], for a given implementation of [sort], under a
    schedule of the pool's events. The task does not use the index it is
    given, so that [indexOf] comparing members by content rather than by
    identity makes no difference. *)
Definition processCommunity_with (sort : (Ranked -> Ranked -> Z) -> list Ranked -> list Ranked)
    (up : Upstream) (fuel : nat) (sched : list event) (communityId : string) (w : World)
    : outcome (list Ranked) * World :=
  match fetchAllMembers up fuel communityId w with
  | (Return members, w1) =>
    match asyncPool CONCURRENCY_LIMIT members (rap_task up fuel) sched (∅, w1) with
    | (Return _, (rapResults, w2)) =>
      let ranked := sort by_rap_desc (map (rank_entry rapResults) members) in
      (Return ranked, storage_set communityId ranked w2)
    | (Throw e, (_, w2)) => (Throw e, w2)
    | (Pending, (_, w2)) => (Pending, w2)
    end
  | (Throw e, w1) => (Throw e, w1)
  | (Pending, w1) => (Pending, w1)
  end.

Definition processCommunity : Upstream -> nat -> list event -> string -> World
    -> outcome (list Ranked) * World :=
  processCommunity_with (@js_sort Ranked).

(** ** The message listener *)

Inductive Message : Type :=
  | FETCH_COMMUNITY (communityId : string)
  | REFRESH
  | OtherMessage.

(** What is passed to [sendResponse]. *)
Inductive Reply : Type :=
  | Success (list_ : list Ranked)
  | Failure (error : string).

(** [processCommunity(id).then(list => sendResponse({ success: true, list }))
      .catch(err => sendResponse({ success: false, error: err.message }))] *)
Definition respond (up : Upstream) (fuel : nat) (sched : list event) (communityId : string)
    (w : World) : outcome Reply * World :=
  match processCommunity up fuel sched communityId w with
  | (Return list_, w') => (Return (Success list_), w')
  | (Throw e, w') => (Return (Failure e), w')
  | (Pending, w') => (Pending, w')
  end.

(** The listener: the reply it sends ([Pending] when it sends none) and
    the world it leaves. *)
Definition onMessage (up : Upstream) (fuel : nat) (sched : list event) (message : Message)
    (w : World) : outcome Reply * World :=
  match message with
  | FETCH_COMMUNITY communityId => respond up fuel sched communityId w
  | REFRESH =>
    if truthy (lastCommunityId (storage w))
    then respond up fuel sched (default "" (lastCommunityId (storage w))) w
    else (Return (Failure "No previous community searched."), w)
  | OtherMessage => (Pending, w)
  end.

(** ** What a paginated source serves *)

(** How a walk through the pages of a source ends: at a page that names
    no next cursor, or at a response that is not a success. *)
Inductive ending : Type :=
  | Finished
  | Refused (status_ : N).

(** [serves source cursor pages e]: asked from [cursor] on, and following
    each page's [nextPageCursor], the source answers with the successful
    pages [pages], in this order, and then ends by [e]. *)
Inductive serves {T : Type} (source : string -> fetched T)
    : string -> list (Page T) -> ending -> Prop :=
  | serves_last cursor r page :
      source cursor = Responds r -> ok r = true -> json r = Some page ->
      nextPageCursor page = None ->
      serves source cursor [page] Finished
  | serves_refused cursor r :
      source cursor = Responds r -> ok r = false ->
      serves source cursor [] (Refused (status r))
  | serves_next cursor r page next pages e :
      source cursor = Responds r -> ok r = true -> json r = Some page ->
      nextPageCursor page = Some next ->
      serves source next pages e ->
      serves source cursor (page :: pages) e.

(** The items of a sequence of pages, concatenated in page order. *)
Definition items_of {T : Type} (pages : list (Page T)) : list T :=
  concat (map (fun p => or_empty (data p)) pages).

Definition Zsum (l : list Z) : Z := foldr Z.add 0 l.

(** The sum of the values that are at least the threshold, over the items
    that have a value. *)
Definition qualifying_total (items : list Collectible) : Z :=
  Zsum (filter (fun v => LIMITED_THRESHOLD <= v) (omap recentAveragePrice items)).

(** ** Invariants and measures of the pool *)

(** What holds of every state an [asyncPool] call goes through. *)
Record pool_inv {A R St : Type} `{EqDecision A} (poolLimit : nat) (array : list A)
    (iteratorFn : A -> Z -> St -> outcome R * St) (s : pool R St) : Prop := mkPoolInv {
  inv_length : (length (ret s) <= length array)%nat;
  inv_nodup : NoDup (executing s);
  inv_bound : forall i, i ∈ executing s -> (i < length (ret s))%nat;
  inv_tracked : (poolLimit <= length array)%nat ->
    forall i p, ret s !! i = Some p -> is_fulfilled p = false -> i ∈ executing s;
  inv_untracked : (length array < poolLimit)%nat -> executing s = [];
  inv_cap : (1 <= poolLimit)%nat -> (length (executing s) <= poolLimit)%nat;
  inv_pc :
    match pc s with
    | AtLoop => (1 <= poolLimit)%nat -> (length (executing s) < poolLimit)%nat
    | AwaitRace raced =>
        NoDup raced /\ ((1 <= poolLimit)%nat -> (length raced <= poolLimit)%nat) /\
        raced <> [] /\
        (forall i, i ∈ executing s -> i ∈ raced) /\
        (forall i, i ∈ raced -> (i < length (ret s))%nat)
    | AwaitAll => length (ret s) = length array
    | Resolved vs => values_of (ret s) = Some vs /\ length (ret s) = length array
    | Failed _ => True
    end;
  inv_values : forall i v, ret s !! i = Some (Fulfilled v) ->
    exists item σ σ', array !! i = Some item /\
      iteratorFn item (indexOf array item) σ = (Return v, σ')
}.

(** Whether [iteratorFn] has been called for a promise. *)
Definition is_started {R : Type} (p : promise R) : bool :=
  match p with Scheduled => false | _ => true end.

Definition started_at {R St : Type} (s : pool R St) (i : nat) : nat :=
  match ret s !! i with
  | Some p => if is_started p then 1 else 0
  | None => 0
  end.

(** How many times a schedule calls [iteratorFn] for [array[i]]. *)
Definition calls (i : nat) (sched : list event) : nat :=
  length (filter (fun ev => ev = Call i) sched).

(** The steps a pool can still take are bounded by its [budget]. *)
Definition promise_budget {R : Type} (p : promise R) : nat :=
  match p with Scheduled => 3 | Running => 2 | _ => 0 end.

Definition control_budget {R : Type} (c : control R) : nat :=
  match c with AtLoop => 2 | AwaitRace _ => 3 | AwaitAll => 1 | _ => 0 end.

Definition budget {A R St : Type} (array : list A) (s : pool R St) : nat :=
  6 * (length array - length (ret s)) + sum_list_with promise_budget (ret s)
  + length (executing s) + control_budget (pc s).

Definition no_rejection {R St : Type} (s : pool R St) : Prop :=
  (forall i e, ret s !! i <> Some (Rejected e)) /\ (forall e, pc s <> Failed e).

(** ** Ranking *)

(** Non-increasing in score. *)
Definition rap_desc (a b : Ranked) : Prop := rap b <= rap a.

(** What [processCommunity] needs of [sort]: the result holds the same
    elements and no element is followed by one the comparator puts
    before it. *)
Definition sorts_by {T : Type} (cmp : T -> T -> Z)
    (sort : (T -> T -> Z) -> list T -> list T) : Prop :=
  forall l, sort cmp l ≡ₚ l /\ Sorted (fun a b => cmp a b <= 0) (sort cmp l).

(** What the tasks of [processCommunity] keep true of [rapResults] and of
    the world: every recorded score is the one [fetchUserRAP] returns for
    its key, and the storage area is as [w] had it. *)
Definition rap_results_ok (up : Upstream) (fuel : nat) (w : World) (σ : gmap Z Z * World) : Prop :=
  (forall uid v, σ.1 !! uid = Some v -> forall w0, (fetchUserRAP up fuel uid w0).1 = Return v) /\
  storage σ.2 = storage w /\ writes σ.2 = writes w.

(** ** A scenario

    A community of two members, served in two roster pages; member 1 owns
    one item of 15000, member 2 items of 5000 and 12000 and one without a
    price; any other collection is unreachable. *)

Definition page_of {T : Type} (items : list T) (next : option string) : fetched T :=
  Responds (mkResponse true 200%N (Some (mkPage (Some items) next))).

Definition scenario : Upstream := {|
  groups_users := fun communityId cursor =>
    if String.eqb communityId "42" then
      if String.eqb cursor "" then page_of [mkRosterEntry (mkUser 1 "A")] (Some "c1")
      else if String.eqb cursor "c1" then page_of [mkRosterEntry (mkUser 2 "B")] None
      else Responds (mkResponse false 400%N None)
    else if String.eqb communityId "77" then
      page_of [mkRosterEntry (mkUser 1 "A"); mkRosterEntry (mkUser 3 "C")] None
    else if String.eqb communityId "0" then page_of [] None
    else Responds (mkResponse false 404%N None);
  collectibles := fun uid cursor =>
    if uid =? 1 then page_of [mkCollectible (Some 15000)] None
    else if uid =? 2 then
      page_of [mkCollectible (Some 5000); mkCollectible (Some 12000); mkCollectible None] None
    else Rejects "Failed to fetch"
|}.

Definition fresh_world : World :=
  {| storage := {| lastCommunityId := None; lastResults := None |}; writes := 0; netlog := [] |}.

Definition used_world : World :=
  {| storage := {| lastCommunityId := Some "42";
                   lastResults := Some [{| r_username := "Z"; rap := 1 |}] |};
     writes := 1; netlog := [] |}.

(** A task that rejects. *)
Definition failing_task (item : Z) (index : Z) (count : nat) : outcome Z * nat :=
  (Throw "boom", S count).

(** A task for a pool of numbers: it returns the item plus its index and
    counts the calls in the shared state. *)
Definition sum_task (item : Z) (index : Z) (count : nat) : outcome Z * nat :=
  (Return (item + index), S count).

(** ** popup.js: the link parser

    The popup is embedded with the same conventions. A link is a [string]
    of bytes; the three patterns of [extractCommunityId] hold ASCII
    characters only, so that a byte from 128 on matches none of them, with
    or without the [i] flag. The page is a record of the properties the
    script reads and writes. [String.prototype.trim] and
    [Number.prototype.toLocaleString] are arguments of what uses them. *)

(** [\d] and [[0-9]]: an ASCII digit. *)
Definition is_digit (c : ascii) : bool :=
  match Ascii.is_nat c with
  | Some _ => true
  | None => false
  end.

(** The canonical form of a character under the [i] flag: its upper case;
    only the letters [a] to [z] have one below code 128, and a character
    from code 128 on is not made equal to one below. *)
Definition canonicalize (c : ascii) : ascii :=
  let n := nat_of_ascii c in
  if ((97 <=? n) && (n <=? 122))%nat then ascii_of_nat (n - 32) else c.

(** Whether a character of the link matches a literal character of the
    pattern, with or without the [i] flag. *)
Definition char_matches (ignoreCase : bool) (pattern c : ascii) : bool :=
  if ignoreCase then bool_decide (canonicalize pattern = canonicalize c)
  else bool_decide (pattern = c).

(** Matching a literal at the start of [s]: what is left of [s]. *)
Fixpoint skip_literal (ignoreCase : bool) (literal s : string) : option string :=
  match literal, s with
  | "", _ => Some s
  | String a literal', String b s' =>
    if char_matches ignoreCase a b then skip_literal ignoreCase literal' s' else None
  | String _ _, "" => None
  end.

(** The longest run of digits at the start of [s], and what follows it:
    what a greedy [\d+] or [[0-9]{3,}] takes first. *)
Fixpoint span_digits (s : string) : string * string :=
  match s with
  | String c s' =>
    if is_digit c then let (d, rest) := span_digits s' in (String c d, rest)
    else ("", s)
  | "" => ("", "")
  end.

(** A string of digits only. *)
Fixpoint digits_only (s : string) : bool :=
  match s with
  | String c s' => is_digit c && digits_only s'
  | "" => true
  end.

(** Whether a string starts with a digit. *)
Definition starts_with_digit (s : string) : bool :=
  match s with
  | String c _ => is_digit c
  | "" => false
  end.

(** Whether a string holds a digit. *)
Fixpoint has_digit (s : string) : bool :=
  match s with
  | String c s' => is_digit c || has_digit s'
  | "" => false
  end.

(** One attempt of [/literal(\d+)/] at the start of [s]: the group. *)
Definition literal_digits (ignoreCase : bool) (literal s : string) : option string :=
  match skip_literal ignoreCase literal s with
  | Some rest =>
    match (span_digits rest).1 with
    | "" => None
    | d => Some d
    end
  | None => None
  end.

(** One attempt of [/\/([0-9]{3,})\//] at the start of [s]: the group.
    Giving back digits of the run cannot help, for then a digit follows
    where the pattern wants the second slash. *)
Definition slash_digits_slash (s : string) : option string :=
  match skip_literal false "/" s with
  | Some rest =>
    let (d, after) := span_digits rest in
    if (3 <=? String.length d)%nat then
      match skip_literal false "/" after with
      | Some _ => Some d
      | None => None
      end
    else None
  | None => None
  end.

(** [link.match(re)[1]] for a pattern without the [g] flag: the attempt is
    made at each position of the link, from the left, and the first that
    succeeds gives the group. *)
Fixpoint first_match (attempt : string -> option string) (s : string) : option string :=
  match attempt s with
  | Some d => Some d
  | None =>
    match s with
    | "" => None
    | String _ s' => first_match attempt s'
    end
  end.

Definition communitiesMatch (link : string) : option string :=
  first_match (literal_digits true "communities/") link.

Definition groupsMatch (link : string) : option string :=
  first_match (literal_digits true "groups/") link.

Definition genericMatch (link : string) : option string :=
  first_match slash_digits_slash link.

Definition extractCommunityId (link : string) : option string :=
  if bool_decide (link = "") then None
  else
    match communitiesMatch link with
    | Some id => Some id
    | None =>
      match groupsMatch link with
      | Some id => Some id
      | None => genericMatch link
      end
    end.


(** ** popup.js: the page *)

(** The elements the script reads and writes: the value of the input, the
    [disabled] flags of the two buttons, the text of the status paragraph
    and the texts of the [li] children of the result list. *)
Record Popup : Type := mkPopup {
  communityInput_value : string;
  searchBtn_disabled : bool;
  refreshBtn_disabled : bool;
  statusP_textContent : string;
  resultList_items : list string
}.

Definition setStatus (text : string) (dom : Popup) : Popup :=
  {| communityInput_value := communityInput_value dom;
     searchBtn_disabled := searchBtn_disabled dom;
     refreshBtn_disabled := refreshBtn_disabled dom;
     statusP_textContent := text;
     resultList_items := resultList_items dom |}.

Definition clearResults (dom : Popup) : Popup :=
  {| communityInput_value := communityInput_value dom;
     searchBtn_disabled := searchBtn_disabled dom;
     refreshBtn_disabled := refreshBtn_disabled dom;
     statusP_textContent := statusP_textContent dom;
     resultList_items := [] |}.

(** [resultList.appendChild(li)] *)
Definition appendResult (text : string) (dom : Popup) : Popup :=
  {| communityInput_value := communityInput_value dom;
     searchBtn_disabled := searchBtn_disabled dom;
     refreshBtn_disabled := refreshBtn_disabled dom;
     statusP_textContent := statusP_textContent dom;
     resultList_items := resultList_items dom ++ [text] |}.

(** [refreshBtn.disabled = b] *)
Definition set_refresh_disabled (b : bool) (dom : Popup) : Popup :=
  {| communityInput_value := communityInput_value dom;
     searchBtn_disabled := searchBtn_disabled dom;
     refreshBtn_disabled := b;
     statusP_textContent := statusP_textContent dom;
     resultList_items := resultList_items dom |}.

(** [`#${idx + 1} ${entry.username} - RAP: ${entry.rap.toLocaleString()}`];
    [toLocaleString] depends on the locale of the browser and is taken as
    given. *)
Definition result_text (toLocaleString : Z -> string) (idx : nat) (entry : Ranked) : string :=
  "#" +:+ pretty (idx + 1)%nat +:+ " " +:+ r_username entry +:+ " - RAP: " +:+
  toLocaleString (rap entry).

(** [top.forEach((entry, idx) => ...)], from position [idx] on. *)
Fixpoint append_results (toLocaleString : Z -> string) (idx : nat) (top : list Ranked)
    (dom : Popup) : Popup :=
  match top with
  | [] => dom
  | entry :: top' =>
    append_results toLocaleString (S idx) top'
      (appendResult (result_text toLocaleString idx entry) dom)
  end.

(** [displayResults(list)], for a [list] that is an array. *)
Definition displayResults (toLocaleString : Z -> string) (list_ : list Ranked)
    (dom : Popup) : Popup :=
  let dom1 := clearResults dom in
  if bool_decide (length list_ = 0%nat) then setStatus "No members or RAP data found." dom1
  else
    let top := take 100 list_ in
    let dom2 := append_results toLocaleString 0 top dom1 in
    setStatus ("Showing top " +:+ pretty (length top) +:+ " of " +:+ pretty (length list_) +:+
               " members.") dom2.

Definition toggleLoading (isLoading : bool) (dom : Popup) : Popup :=
  let dom1 :=
    {| communityInput_value := communityInput_value dom;
       searchBtn_disabled := isLoading;
       refreshBtn_disabled := isLoading;
       statusP_textContent := statusP_textContent dom;
       resultList_items := resultList_items dom |} in
  if isLoading then setStatus "Fetching data, please wait..." dom1 else dom1.

(** The callback both [fetchCommunityList] and [refreshList] give to
    [chrome.runtime.sendMessage]: what the promise they return settles to,
    given [chrome.runtime.lastError] (its message, when set) and the reply
    of the listener. *)
Definition on_response (lastError : option string) (reply : outcome Reply)
    : outcome (list Ranked) :=
  match lastError with
  | Some e => Throw e
  | None =>
    match reply with
    | Return (Success list_) => Return list_
    | Return (Failure error) =>
      Throw (if bool_decide (error = "") then "Unknown error" else error)
    | Throw e => Throw e
    | Pending => Pending
    end
  end.

Definition fetchCommunityList (up : Upstream) (fuel : nat) (sched : list event)
    (lastError : option string) (id : string) (w : World) : outcome (list Ranked) * World :=
  let (reply, w') := onMessage up fuel sched (FETCH_COMMUNITY id) w in
  (on_response lastError reply, w').

Definition refreshList (up : Upstream) (fuel : nat) (sched : list event)
    (lastError : option string) (w : World) : outcome (list Ranked) * World :=
  let (reply, w') := onMessage up fuel sched REFRESH w in
  (on_response lastError reply, w').

(** Where a click handler stands: whether it has run to its end, the page
    and the world. *)
Record Handled : Type := mkHandled {
  handler_finished : bool;
  handler_page : Popup;
  handler_world : World
}.

(** The [click] listener of [searchBtn]; [trim] is
    [String.prototype.trim]. *)
Definition searchBtn_click (trim : string -> string) (toLocaleString : Z -> string)
    (up : Upstream) (fuel : nat) (sched : list event) (lastError : option string)
    (dom : Popup) (w : World) : Handled :=
  let link := trim (communityInput_value dom) in
  match extractCommunityId link with
  | None => mkHandled true (setStatus "Invalid community link." dom) w
  | Some communityId =>
    let dom1 := toggleLoading true dom in
    match fetchCommunityList up fuel sched lastError communityId w with
    | (Return list_, w') =>
      mkHandled true
        (toggleLoading false (set_refresh_disabled false (displayResults toLocaleString list_ dom1)))
        w'
    | (Throw message, w') =>
      mkHandled true (toggleLoading false (setStatus ("Error: " +:+ message) dom1)) w'
    | (Pending, w') => mkHandled false dom1 w'
    end
  end.

(** The [click] listener of [refreshBtn]. *)
Definition refreshBtn_click (toLocaleString : Z -> string)
    (up : Upstream) (fuel : nat) (sched : list event) (lastError : option string)
    (dom : Popup) (w : World) : Handled :=
  let dom1 := toggleLoading true dom in
  match refreshList up fuel sched lastError w with
  | (Return list_, w') =>
    mkHandled true (toggleLoading false (displayResults toLocaleString list_ dom1)) w'
  | (Throw message, w') =>
    mkHandled true (toggleLoading false (setStatus ("Error: " +:+ message) dom1)) w'
  | (Pending, w') => mkHandled false dom1 w'
  end.

(** On load: [chrome.storage.local.get(['lastResults'], ...)]. An array,
    even an empty one, is truthy. *)
Definition on_load (toLocaleString : Z -> string) (dom : Popup) (w : World) : Popup :=
  match lastResults (storage w) with
  | Some list_ => set_refresh_disabled false (displayResults toLocaleString list_ dom)
  | None => dom
  end.

(** What a click handler has done to the buttons: once it has run to its
    end both are enabled; while it waits both are disabled, the status
    says so, and the list is as it was. *)
Definition buttons_follow (dom : Popup) (h : Handled) : Prop :=
  if handler_finished h then
    searchBtn_disabled (handler_page h) = false /\
    refreshBtn_disabled (handler_page h) = false
  else
    searchBtn_disabled (handler_page h) = true /\
    refreshBtn_disabled (handler_page h) = true /\
    statusP_textContent (handler_page h) = "Fetching data, please wait..." /\
    resultList_items (handler_page h) = resultList_items dom.

Definition blank_popup (link : string) : Popup :=
  {| communityInput_value := link; searchBtn_disabled := false; refreshBtn_disabled := true;
     statusP_textContent := ""; resultList_items := [] |}.

(** [trim] on a link without white space around it, and a
    [toLocaleString] without separators. *)
Definition id_trim (s : string) : string := s.
Definition plain_number (z : Z) : string := pretty z.

(** A second scenario: community 5 is served in one page that names the
    empty string as its next cursor; community 8 has two members without
    items; the collection of member 1 is refused on its second page. *)
Definition patchy : Upstream := {|
  groups_users := fun communityId cursor =>
    if String.eqb communityId "5" then page_of [mkRosterEntry (mkUser 1 "A")] (Some "")
    else if String.eqb communityId "8" then
      page_of [mkRosterEntry (mkUser 4 "D"); mkRosterEntry (mkUser 5 "E")] None
    else Responds (mkResponse false 404%N None);
  collectibles := fun uid cursor =>
    if uid =? 1 then
      if String.eqb cursor "" then
        page_of [mkCollectible (Some 20000); mkCollectible (Some 3000)] (Some "n1")
      else Responds (mkResponse false 429%N None)
    else if uid =? 6 then page_of [mkCollectible (Some 11000)] (Some "")
    else page_of [] None
|}.



(** * Verification *)

(** ** Paginated fetching *)

Lemma truthy_Some (c : string) : c <> "" -> truthy (Some c) = true.
Proof.
  intros Hc. unfold truthy.
  destruct (String.eqb_spec c ""); [contradiction | reflexivity].
Qed.

Lemma serves_deterministic {T : Type} (source : string -> fetched T) cursor pages1 e1 :
  serves source cursor pages1 e1 ->
  forall pages2 e2, serves source cursor pages2 e2 -> pages1 = pages2 /\ e1 = e2.
Proof.
  induction 1 as [c r p Hs Hok Hj Hn | c r Hs Hok | c r p next ps e Hs Hok Hj Hn Hrest IH];
    intros pages2 e2 H2; inversion H2; subst; try congruence.
  - split; congruence.
  - split; congruence.
  - assert (next0 = next) by congruence. subst next0.
    destruct (IH _ _ ltac:(eassumption)) as [-> ->].
    split; congruence.
Qed.

(** A finite walk that starts at the empty cursor never comes back to it:
    no page of it names the empty string as its next cursor. *)
Lemma serves_no_empty_next_aux {T : Type} (source : string -> fetched T) pages0 e0 :
  serves source "" pages0 e0 ->
  forall cursor pages e, serves source cursor pages e ->
  (length pages <= length pages0)%nat ->
  Forall (fun p => nextPageCursor p <> Some "") pages.
Proof.
  intros H0. induction 1 as [c r p Hs Hok Hj Hn | c r Hs Hok | c r p next ps e Hs Hok Hj Hn Hrest IH];
    intros Hlen.
  - constructor; [congruence | constructor].
  - constructor.
  - simpl in Hlen. constructor.
    + intros Heq. assert (next = "") by congruence. subst next.
      destruct (serves_deterministic _ _ _ _ Hrest _ _ H0) as [-> _]. lia.
    + apply IH. lia.
Qed.

Lemma serves_no_empty_next {T : Type} (source : string -> fetched T) pages e :
  serves source "" pages e ->
  Forall (fun p => nextPageCursor p <> Some "") pages.
Proof.
  intros H. exact (serves_no_empty_next_aux source pages e H "" pages e H (le_n _)).
Qed.

Lemma items_of_cons {T : Type} (p : Page T) pages :
  items_of (p :: pages) = or_empty (data p) ++ items_of pages.
Proof. reflexivity. Qed.

Lemma fetchAllMembers_loop_serves up communityId cursor pages e :
  serves (groups_users up communityId) cursor pages e ->
  Forall (fun p => nextPageCursor p <> Some "") pages ->
  forall fuel members w, (length pages < fuel)%nat ->
  (fetchAllMembers_loop up fuel communityId members cursor w).1 =
    match e with
    | Finished => Return (members ++ map member_of_entry (items_of pages))
    | Refused st => Throw ("Failed to fetch members: " +:+ pretty st)
    end.
Proof.
  induction 1 as [c r p Hs Hok Hj Hn | c r Hs Hok | c r p next ps e Hs Hok Hj Hn Hrest IH];
    intros Hne fuel members w Hfuel.
  - destruct fuel as [|fuel]; [simpl in Hfuel; lia |].
    simpl. rewrite Hs, Hok, Hj, Hn. simpl.
    unfold items_of. simpl. rewrite app_nil_r. reflexivity.
  - destruct fuel as [|fuel]; [simpl in Hfuel; lia |].
    simpl. rewrite Hs, Hok. reflexivity.
  - destruct fuel as [|fuel]; [simpl in Hfuel; lia |].
    inversion Hne as [|? ? Hp Hps]; subst.
    assert (Hnext : next <> "") by congruence.
    cbn [fetchAllMembers_loop]. rewrite Hs, Hok, Hj, Hn.
    rewrite (truthy_Some _ Hnext). cbn [negb default].
    rewrite IH by (auto; simpl in Hfuel; lia).
    destruct e; [| reflexivity].
    rewrite items_of_cons, map_app, app_assoc. reflexivity.
Qed.

Lemma Zsum_app l1 l2 : Zsum (l1 ++ l2) = Zsum l1 + Zsum l2.
Proof. unfold Zsum. induction l1 as [|x l1 IH]; simpl; [reflexivity | rewrite IH; lia]. Qed.

Lemma qualifying_total_app l1 l2 :
  qualifying_total (l1 ++ l2) = qualifying_total l1 + qualifying_total l2.
Proof. unfold qualifying_total. rewrite omap_app, filter_app. apply Zsum_app. Qed.

Lemma add_page_total items : forall rap0, add_page rap0 items = rap0 + qualifying_total items.
Proof.
  unfold add_page. induction items as [|item items IH]; intros rap0; simpl.
  - unfold qualifying_total. simpl. lia.
  - rewrite IH. change (item :: items) with ([item] ++ items).
    rewrite qualifying_total_app.
    unfold qualifying_total at 2. unfold LIMITED_THRESHOLD.
    destruct item as [[v|]]; simpl.
    + rewrite filter_cons. destruct (decide (10000 <= v)) as [Hv|Hv].
      * replace (v >=? 10000) with true by (symmetry; apply Z.geb_le; lia).
        rewrite filter_nil. simpl. lia.
      * replace (v >=? 10000) with false
          by (symmetry; rewrite Z.geb_leb; apply Z.leb_gt; lia).
        rewrite filter_nil. simpl. lia.
    + lia.
Qed.

Lemma fetchUserRAP_loop_serves up uid cursor pages e :
  serves (collectibles up uid) cursor pages e ->
  Forall (fun p => nextPageCursor p <> Some "") pages ->
  forall fuel rap0 w, (length pages < fuel)%nat ->
  (fetchUserRAP_loop up fuel uid rap0 cursor w).1 =
    Return (rap0 + qualifying_total (items_of pages)).
Proof.
  induction 1 as [c r p Hs Hok Hj Hn | c r Hs Hok | c r p next ps e Hs Hok Hj Hn Hrest IH];
    intros Hne fuel rap0 w Hfuel.
  - destruct fuel as [|fuel]; [simpl in Hfuel; lia |].
    simpl. rewrite Hs, Hok, Hj, Hn. simpl.
    unfold items_of. simpl. rewrite app_nil_r, add_page_total. reflexivity.
  - destruct fuel as [|fuel]; [simpl in Hfuel; lia |].
    simpl. rewrite Hs, Hok. simpl. unfold items_of, qualifying_total. simpl.
    f_equal. lia.
  - destruct fuel as [|fuel]; [simpl in Hfuel; lia |].
    inversion Hne as [|? ? Hp Hps]; subst.
    assert (Hnext : next <> "") by congruence.
    cbn [fetchUserRAP_loop]. rewrite Hs, Hok, Hj, Hn.
    rewrite (truthy_Some _ Hnext). cbn [negb default].
    rewrite IH by (auto; simpl in Hfuel; lia).
    rewrite items_of_cons, qualifying_total_app, add_page_total. f_equal. lia.
Qed.

(** ** The fetchers and the world *)

(** Case analysis along one iteration of a fetch loop. *)
Ltac loop_cases :=
  repeat match goal with
  | |- context [match groups_users ?up ?c ?k with _ => _ end] =>
      destruct (groups_users up c k) as [? | ?]
  | |- context [match collectibles ?up ?c ?k with _ => _ end] =>
      destruct (collectibles up c k) as [? | ?]
  | |- context [if negb (ok ?r) then _ else _] => destruct (ok r); cbn [negb]
  | |- context [match json ?r with _ => _ end] => destruct (json r) as [? |]
  | |- context [if negb (truthy ?c) then _ else _] => destruct (truthy c); cbn [negb]
  end.

Lemma fetchAllMembers_loop_outcome_world up communityId fuel :
  forall members cursor w w',
  (fetchAllMembers_loop up fuel communityId members cursor w).1 =
  (fetchAllMembers_loop up fuel communityId members cursor w').1.
Proof.
  induction fuel as [|fuel IH]; intros members cursor w w'; [reflexivity |].
  cbn [fetchAllMembers_loop]. loop_cases; try reflexivity. apply IH.
Qed.

Lemma fetchAllMembers_loop_storage up communityId fuel :
  forall members cursor w,
  storage (fetchAllMembers_loop up fuel communityId members cursor w).2 = storage w /\
  writes (fetchAllMembers_loop up fuel communityId members cursor w).2 = writes w.
Proof.
  induction fuel as [|fuel IH]; intros members cursor w; [split; reflexivity |].
  cbn [fetchAllMembers_loop]. loop_cases; try (split; reflexivity).
  destruct (IH (members ++ map member_of_entry (or_empty (data p))) (default "" (nextPageCursor p))
              (log_fetch (members_url communityId cursor) w)) as [-> ->].
  split; reflexivity.
Qed.

Lemma fetchAllMembers_loop_more_fuel up communityId fuel :
  forall members cursor w fuel',
  (fetchAllMembers_loop up fuel communityId members cursor w).1 <> Pending ->
  (fuel <= fuel')%nat ->
  (fetchAllMembers_loop up fuel' communityId members cursor w).1 =
  (fetchAllMembers_loop up fuel communityId members cursor w).1.
Proof.
  induction fuel as [|fuel IH]; intros members cursor w fuel' Hdone Hle.
  - exfalso. apply Hdone. reflexivity.
  - destruct fuel' as [|fuel']; [lia |].
    revert Hdone. cbn [fetchAllMembers_loop]. loop_cases; try reflexivity.
    intros Hdone. apply IH; [exact Hdone | lia].
Qed.

Lemma fetchUserRAP_loop_outcome_world up uid fuel :
  forall rap0 cursor w w',
  (fetchUserRAP_loop up fuel uid rap0 cursor w).1 =
  (fetchUserRAP_loop up fuel uid rap0 cursor w').1.
Proof.
  induction fuel as [|fuel IH]; intros rap0 cursor w w'; [reflexivity |].
  cbn [fetchUserRAP_loop]. loop_cases; try reflexivity. apply IH.
Qed.

Lemma fetchUserRAP_loop_storage up uid fuel :
  forall rap0 cursor w,
  storage (fetchUserRAP_loop up fuel uid rap0 cursor w).2 = storage w /\
  writes (fetchUserRAP_loop up fuel uid rap0 cursor w).2 = writes w.
Proof.
  induction fuel as [|fuel IH]; intros rap0 cursor w; [split; reflexivity |].
  cbn [fetchUserRAP_loop]. loop_cases; try (split; reflexivity).
  destruct (IH (add_page rap0 (or_empty (data p))) (default "" (nextPageCursor p))
              (log_fetch (collectibles_url uid cursor) w)) as [-> ->].
  split; reflexivity.
Qed.

Lemma fetchUserRAP_loop_more_fuel up uid fuel :
  forall rap0 cursor w fuel',
  (fetchUserRAP_loop up fuel uid rap0 cursor w).1 <> Pending ->
  (fuel <= fuel')%nat ->
  (fetchUserRAP_loop up fuel' uid rap0 cursor w).1 =
  (fetchUserRAP_loop up fuel uid rap0 cursor w).1.
Proof.
  induction fuel as [|fuel IH]; intros rap0 cursor w fuel' Hdone Hle.
  - exfalso. apply Hdone. reflexivity.
  - destruct fuel' as [|fuel']; [lia |].
    revert Hdone. cbn [fetchUserRAP_loop]. loop_cases; try reflexivity.
    intros Hdone. apply IH; [exact Hdone | lia].
Qed.

(** Two calls that both settle, whatever their fuel and world, settle alike. *)
Lemma fetchUserRAP_settles_alike up uid fuel1 fuel2 w1 w2 :
  (fetchUserRAP up fuel1 uid w1).1 <> Pending ->
  (fetchUserRAP up fuel2 uid w2).1 <> Pending ->
  (fetchUserRAP up fuel1 uid w1).1 = (fetchUserRAP up fuel2 uid w2).1.
Proof.
  unfold fetchUserRAP. intros H1 H2.
  rewrite (fetchUserRAP_loop_outcome_world up uid fuel2 0 "" w2 w1) in *.
  destruct (Nat.le_ge_cases fuel1 fuel2) as [Hle|Hle].
  - symmetry. apply fetchUserRAP_loop_more_fuel; assumption.
  - apply fetchUserRAP_loop_more_fuel; assumption.
Qed.

Lemma fetchAllMembers_settles_alike up communityId fuel1 fuel2 w1 w2 :
  (fetchAllMembers up fuel1 communityId w1).1 <> Pending ->
  (fetchAllMembers up fuel2 communityId w2).1 <> Pending ->
  (fetchAllMembers up fuel1 communityId w1).1 = (fetchAllMembers up fuel2 communityId w2).1.
Proof.
  unfold fetchAllMembers. intros H1 H2.
  rewrite (fetchAllMembers_loop_outcome_world up communityId fuel2 [] "" w2 w1) in *.
  destruct (Nat.le_ge_cases fuel1 fuel2) as [Hle|Hle].
  - symmetry. apply fetchAllMembers_loop_more_fuel; assumption.
  - apply fetchAllMembers_loop_more_fuel; assumption.
Qed.

(** ** The pool *)
(** ** Arrays *)

Lemma indexOf_from_elem {A : Type} `{EqDecision A} (l : list A) (x : A) :
  x ∈ l -> forall z, exists k : nat, indexOf_from z l x = z + Z.of_nat k /\ l !! k = Some x.
Proof.
  induction l as [|y l IH]; intros Hin z.
  - inversion Hin.
  - cbn [indexOf_from]. destruct (decide (y = x)) as [->|Hne].
    + exists 0%nat. split; [lia | reflexivity].
    + assert (Hin' : x ∈ l) by (inversion Hin; subst; [congruence | assumption]).
      destruct (IH Hin' (z + 1)) as (k & Hk & Hlk).
      exists (S k). split; [lia | exact Hlk].
Qed.

(** Removing from [executing] the promise that is in it. *)
Lemma splice1_indexOf (l : list nat) (i : nat) :
  i ∈ l -> exists k, l !! k = Some i /\ splice1 (indexOf l i) l = delete k l.
Proof.
  intros Hin. destruct (indexOf_from_elem l i Hin 0) as (k & Hk & Hlk).
  exists k. split; [exact Hlk |].
  unfold splice1, indexOf. rewrite Hk.
  apply lookup_lt_Some in Hlk.
  replace (0 + Z.of_nat k <? 0) with false by (symmetry; apply Z.ltb_ge; lia).
  f_equal. lia.
Qed.

Lemma splice1_indexOf_perm (l : list nat) (i : nat) :
  i ∈ l -> l ≡ₚ i :: splice1 (indexOf l i) l.
Proof.
  intros Hin. destruct (splice1_indexOf l i Hin) as (k & Hlk & ->).
  by apply delete_Permutation.
Qed.

(** Distinct positions of running promises, all listed in a duplicate-free
    list, are no more than the list is long. *)
Lemma running_le_listed {R : Type} (ps : list (promise R)) :
  forall l : list nat, NoDup l ->
  (forall i p, ps !! i = Some p -> is_running p = true -> i ∈ l) ->
  (length (filter (fun p => is_running p = true) ps) <= length l)%nat.
Proof.
  induction ps as [|p ps IH] using rev_ind; intros l Hnd Hin.
  - simpl. lia.
  - rewrite filter_app, length_app.
    assert (Hps : forall l', NoDup l' ->
              (forall i q, ps !! i = Some q -> is_running q = true -> i ∈ l') ->
              (length (filter (fun p => is_running p = true) ps) <= length l')%nat)
      by exact IH.
    destruct (is_running p) eqn:Hp.
    + assert (Hl : length ps ∈ l).
      { apply (Hin (length ps) p); [| exact Hp].
        rewrite lookup_app_r by lia. by rewrite Nat.sub_diag. }
      apply elem_of_Permutation in Hl as [l' Hl'].
      rewrite Hl' in Hnd. apply NoDup_cons in Hnd as [Hnot Hnd'].
      rewrite Hl'. rewrite filter_cons_True by exact Hp. simpl.
      specialize (Hps l' Hnd'). 
      assert (length (filter (fun p => is_running p = true) ps) <= length l')%nat; [| lia].
      apply Hps. intros i q Hi Hq.
      assert (Hi' : i ∈ l).
      { apply (Hin i q); [| exact Hq]. by rewrite lookup_app_l by (by eapply lookup_lt_Some). }
      rewrite Hl' in Hi'. apply elem_of_cons in Hi' as [-> | Hi']; [| exact Hi'].
      apply lookup_lt_Some in Hi. lia.
    + rewrite filter_cons_False by (rewrite Hp; discriminate). simpl.
      assert (length (filter (fun p => is_running p = true) ps) <= length l)%nat; [| lia].
      apply Hps; [exact Hnd |]. intros i q Hi Hq. apply (Hin i q); [| exact Hq].
      by rewrite lookup_app_l by (by eapply lookup_lt_Some).
Qed.

Lemma values_of_Some {R : Type} (ps : list (promise R)) :
  forall vs, values_of ps = Some vs ->
  length vs = length ps /\ forall i, ps !! i = Fulfilled <$> (vs !! i).
Proof.
  induction ps as [|p ps IH]; intros vs Hvs.
  - inversion Hvs; subst. split; [reflexivity | intros i; reflexivity].
  - cbn [values_of] in Hvs. destruct p as [| | v | e]; try discriminate.
    destruct (values_of ps) as [vs'|] eqn:Hps; [| discriminate].
    inversion Hvs; subst. destruct (IH vs' eq_refl) as [Hlen Hall].
    split; [simpl; lia |]. intros [|i]; [reflexivity | apply Hall].
Qed.

Lemma values_of_all_fulfilled {R : Type} (ps : list (promise R)) :
  Forall (fun p => is_fulfilled p = true) ps -> exists vs, values_of ps = Some vs.
Proof.
  induction 1 as [|p ps Hp _ [vs IH]]; [by exists [] |].
  destruct p; try discriminate. cbn [values_of]. rewrite IH. eauto.
Qed.

Section PoolInvariant.
Context {A R St : Type} `{EqDecision A}.
Variable poolLimit : nat.
Variable array : list A.
Variable iteratorFn : A -> Z -> St -> outcome R * St.

Local Abbreviation Inv := (pool_inv poolLimit array iteratorFn).
Local Abbreviation stepP := (step poolLimit array iteratorFn).
Local Abbreviation execP := (exec poolLimit array iteratorFn).

Lemma pool_inv_init σ : Inv (pool_init σ).
Proof.
  constructor; simpl; try lia.
  - constructor.
  - intros i Hi. inversion Hi.
  - intros _ i p Hi. rewrite lookup_nil in Hi. discriminate.
  - reflexivity.
  - intros i v Hi. rewrite lookup_nil in Hi. discriminate.
Qed.

Lemma pool_inv_loop_body s item :
  Inv s -> pc s = AtLoop -> array !! length (ret s) = Some item -> Inv (loop_body poolLimit array s).
Proof.
  intros [Hadm Hnd Hbd Htr Hun Hcap Hpc Hval] Hloop Hitem.
  rewrite Hloop in Hpc. apply lookup_lt_Some in Hitem as Hlt.
  assert (Hfresh : length (ret s) ∉ executing s).
  { intros Hin. apply Hbd in Hin. lia. }
  unfold loop_body. case_bool_decide as Htracked.
  - assert (Hnd' : NoDup (executing s ++ [length (ret s)])).
    { apply NoDup_app. split; [exact Hnd |]. split.
      - intros x Hx Hx'. apply list_elem_of_singleton in Hx'. subst. contradiction.
      - apply NoDup_singleton. }
    assert (Hbd' : forall i, i ∈ executing s ++ [length (ret s)] ->
              (i < length (ret s ++ [@Scheduled R]))%nat).
    { intros i Hi. rewrite length_app. simpl.
      apply elem_of_app in Hi as [Hi | Hi]; [apply Hbd in Hi; lia |].
      apply list_elem_of_singleton in Hi. lia. }
    assert (Htr' : forall i p, (ret s ++ [Scheduled]) !! i = Some p ->
              is_fulfilled p = false -> i ∈ executing s ++ [length (ret s)]).
    { intros i p Hi Hp. apply lookup_snoc_Some in Hi as [[Hi1 Hi2] | [Hi1 Hi2]].
      - apply elem_of_app. left. eapply Htr; eauto.
      - subst. apply elem_of_app. right. by apply list_elem_of_singleton. }
    assert (Hval' : forall i v, (ret s ++ [Scheduled]) !! i = Some (Fulfilled v) ->
              exists item σ σ', array !! i = Some item /\
                iteratorFn item (indexOf array item) σ = (Return v, σ')).
    { intros i v Hi. apply lookup_snoc_Some in Hi as [[Hi1 Hi2] | [Hi1 Hi2]];
        [eauto | discriminate]. }
    assert (Hlen' : length (executing s ++ [length (ret s)]) = S (length (executing s))).
    { rewrite length_app. simpl. lia. }
    case_bool_decide as Hfull; constructor; simpl; try done.
    + rewrite length_app; simpl; lia.
    + intros Hu. lia.
    + intros Hpos. specialize (Hpc Hpos). lia.
    + split; [exact Hnd' |]. split; [intros Hpos; specialize (Hpc Hpos); lia |].
      split; [| by split].
      intros Hnil. apply (f_equal length) in Hnil. rewrite Hlen' in Hnil. discriminate.
    + rewrite length_app; simpl; lia.
    + intros Hu. lia.
    + intros Hpos. specialize (Hpc Hpos). lia.
    + intros Hpos. lia.
  - constructor; simpl; try done.
    + rewrite length_app; simpl; lia.
    + intros i Hi. apply Hbd in Hi. rewrite length_app. simpl. lia.
    + intros i v Hi. apply lookup_snoc_Some in Hi as [[Hi1 Hi2] | [Hi1 Hi2]];
        [eauto | discriminate].
Qed.

Lemma existsb_e_fulfilled (ps : list (promise R)) (ex raced : list nat) :
  existsb (e_fulfilled ps ex) raced = true -> exists i, i ∈ raced /\ i ∉ ex.
Proof.
  intros Hex. apply existsb_exists in Hex as (i & Hi & Hf).
  exists i. split; [by apply list_elem_of_In |].
  unfold e_fulfilled in Hf. destruct (ps !! i) as [[| | v |]|]; try discriminate.
  by apply bool_decide_eq_true in Hf.
Qed.

Lemma pool_inv_step ev s s' : Inv s -> stepP ev s = Some s' -> Inv s'.
Proof.
  intros HI Hstep. pose proof HI as [Hadm Hnd Hbd Htr Hun Hcap Hpc Hval].
  destruct ev as [| i | i | i | i]; cbn [step] in Hstep.
  - (* Main *)
    unfold step_main in Hstep. destruct (pc s) as [| raced | | vs | e] eqn:Hc; try discriminate.
    + destruct (array !! length (ret s)) as [item|] eqn:Hitem; inversion Hstep; subst.
      * eapply pool_inv_loop_body; eauto.
      * apply lookup_ge_None in Hitem. constructor; simpl; try done. lia.
    + destruct (existsb _ raced) eqn:Hex; inversion Hstep; subst.
      apply existsb_e_fulfilled in Hex as (i & Hi & Hni).
      destruct Hpc as (Hndr & Hlenr & _ & Hsub & _).
      constructor; simpl; try done.
      intros Hpos. specialize (Hlenr Hpos).
      assert (Hsm : i :: executing s ⊆+ raced).
      { apply NoDup_submseteq; [by apply NoDup_cons |].
        intros x Hx. apply elem_of_cons in Hx as [-> | Hx]; auto. }
      apply submseteq_length in Hsm. simpl in Hsm. lia.
    + destruct (values_of (ret s)) as [vs|] eqn:Hvs; inversion Hstep; subst.
      constructor; simpl; try done.
  - (* Call *)
    unfold step_call in Hstep.
    destruct (ret s !! i) as [[| | v | e]|] eqn:Hi; inversion Hstep; subst.
    constructor; simpl; rewrite ?length_insert; try done.
    + intros Ht j p Hj Hp. destruct (decide (i = j)) as [-> | Hne].
      * eapply Htr; eauto.
      * rewrite list_lookup_insert_ne in Hj by done. eapply Htr; eauto.
    + destruct (pc s) as [| raced | | vs | e]; try done.
      destruct Hpc as [Hvs Hlen]. apply values_of_Some in Hvs as [_ Hall].
      rewrite Hall in Hi. destruct (vs !! i); discriminate.
    + intros j v Hj. destruct (decide (i = j)) as [-> | Hne].
      * rewrite list_lookup_insert_eq in Hj by (by eapply lookup_lt_Some). discriminate.
      * rewrite list_lookup_insert_ne in Hj by done. eauto.
  - (* Settle *)
    unfold step_settle in Hstep.
    destruct (ret s !! i) as [[| | v | e]|] eqn:Hi; try discriminate.
    destruct (array !! i) as [item|] eqn:Hitem; try discriminate.
    destruct (iteratorFn item (indexOf array item) (shared s)) as [[v | e |] σ] eqn:Hf;
      inversion Hstep; subst.
    + constructor; simpl; rewrite ?length_insert; try done.
      * intros Ht j p Hj Hp. destruct (decide (i = j)) as [-> | Hne].
        -- eapply Htr; eauto.
        -- rewrite list_lookup_insert_ne in Hj by done. eapply Htr; eauto.
      * destruct (pc s) as [| raced | | vs | e]; try done.
        destruct Hpc as [Hvs Hlen]. apply values_of_Some in Hvs as [_ Hall].
        rewrite Hall in Hi. destruct (vs !! i); discriminate.
      * intros j v' Hj. destruct (decide (i = j)) as [-> | Hne].
        -- rewrite list_lookup_insert_eq in Hj by (by eapply lookup_lt_Some).
           inversion Hj; subst. eauto 6.
        -- rewrite list_lookup_insert_ne in Hj by done. eauto.
    + constructor; simpl; rewrite ?length_insert; try done.
      * intros Ht j p Hj Hp. destruct (decide (i = j)) as [-> | Hne].
        -- eapply Htr; eauto.
        -- rewrite list_lookup_insert_ne in Hj by done. eapply Htr; eauto.
      * destruct (pc s) as [| raced | | vs | e']; try done.
        destruct Hpc as [Hvs Hlen]. apply values_of_Some in Hvs as [_ Hall].
        rewrite Hall in Hi. destruct (vs !! i); discriminate.
      * intros j v' Hj. destruct (decide (i = j)) as [-> | Hne].
        -- rewrite list_lookup_insert_eq in Hj by (by eapply lookup_lt_Some). discriminate.
        -- rewrite list_lookup_insert_ne in Hj by done. eauto.
  - (* Splice *)
    unfold step_splice in Hstep.
    destruct (ret s !! i) as [[| | v | e]|] eqn:Hi; try discriminate.
    case_bool_decide as Hin; inversion Hstep; subst.
    pose proof (splice1_indexOf_perm _ _ Hin) as Hperm.
    assert (Hnd' : NoDup (i :: splice1 (indexOf (executing s) i) (executing s)))
      by (by rewrite <- Hperm).
    apply NoDup_cons in Hnd' as [Hnot Hnd'].
    assert (Hsub : forall j, j ∈ splice1 (indexOf (executing s) i) (executing s) -> j ∈ executing s).
    { intros j Hj. rewrite Hperm. by apply elem_of_cons; right. }
    assert (Hlen : length (executing s) = S (length (splice1 (indexOf (executing s) i) (executing s)))).
    { by rewrite Hperm at 1. }
    constructor; simpl; try done.
    + intros j Hj. auto.
    + intros Ht j p Hj Hp.
      assert (Hj' : j ∈ executing s) by (eapply Htr; eauto).
      rewrite Hperm in Hj'. apply elem_of_cons in Hj' as [-> | Hj']; [| done].
      rewrite Hi in Hj. inversion Hj; subst. discriminate.
    + intros Hu. rewrite (Hun Hu) in Hin. inversion Hin.
    + intros Hpos. specialize (Hcap Hpos). lia.
    + destruct (pc s) as [| raced | | vs | e]; try done.
      * intros Hpos. specialize (Hpc Hpos). lia.
      * destruct Hpc as (? & ? & ? & Hs & ?). repeat split; auto.
  - (* Raise *)
    unfold step_raise in Hstep.
    destruct (ret s !! i) as [[| | v | e]|] eqn:Hi; try discriminate.
    destruct (pc s) as [| raced | | vs | e'] eqn:Hc; try discriminate.
    + case_bool_decide; inversion Hstep; subst. constructor; simpl; try done.
    + inversion Hstep; subst. constructor; simpl; try done.
Qed.

Lemma pool_inv_exec sched : forall s s', Inv s -> execP sched s = Some s' -> Inv s'.
Proof.
  induction sched as [|ev sched IH]; intros s s' HI Hex; simpl in Hex.
  - by inversion Hex; subst.
  - destruct (stepP ev s) as [s1|] eqn:Hs; [| discriminate].
    eapply IH; [| exact Hex]. eapply pool_inv_step; eauto.
Qed.

(** At most [poolLimit] tasks are started and not completed. *)
Lemma pool_inv_in_flight s :
  (1 <= poolLimit)%nat -> Inv s -> (in_flight s <= poolLimit)%nat.
Proof.
  intros Hpos [Hadm Hnd Hbd Htr Hun Hcap Hpc Hval]. unfold in_flight.
  destruct (decide (poolLimit <= length array)%nat) as [Ht | Hu].
  - etrans; [| exact (Hcap Hpos)]. apply running_le_listed; [exact Hnd |].
    intros i p Hi Hp. eapply Htr; eauto. by destruct p.
  - pose proof (length_filter (fun p : promise R => is_running p = true) (ret s)). lia.
Qed.
End PoolInvariant.

Section PoolRuns.
Context {A R St : Type} `{EqDecision A}.
Variable poolLimit : nat.
Variable array : list A.
Variable iteratorFn : A -> Z -> St -> outcome R * St.

Local Abbreviation Inv := (pool_inv poolLimit array iteratorFn).
Local Abbreviation stepP := (step poolLimit array iteratorFn).
Local Abbreviation execP := (exec poolLimit array iteratorFn).

Lemma exec_app sched1 : forall sched2 s,
  execP (sched1 ++ sched2) s = execP sched1 s ≫= execP sched2.
Proof.
  induction sched1 as [|ev sched1 IH]; intros sched2 s; simpl; [reflexivity |].
  destruct (stepP ev s); [apply IH | reflexivity].
Qed.

Lemma started_at_insert (s s' : pool R St) i j p q :
  ret s !! j = Some p -> ret s' = <[j := q]> (ret s) ->
  started_at s' i =
  if decide (j = i) then (if is_started q then 1 else 0)%nat else started_at s i.
Proof.
  intros Hj Hret. unfold started_at. rewrite Hret. destruct (decide (j = i)) as [-> | Hne].
  - rewrite list_lookup_insert_eq by (by eapply lookup_lt_Some). reflexivity.
  - by rewrite list_lookup_insert_ne.
Qed.

Lemma step_started ev s s' i :
  stepP ev s = Some s' ->
  started_at s' i = (started_at s i + if decide (ev = Call i) then 1 else 0)%nat.
Proof.
  intros Hstep. destruct ev as [| j | j | j | j]; cbn [step] in Hstep.
  - rewrite decide_False by discriminate.
    unfold step_main in Hstep. destruct (pc s) as [| raced | | vs | e]; try discriminate.
    + destruct (array !! length (ret s)); inversion Hstep; subst; [| unfold started_at; simpl; lia].
      assert (Hret : ret (loop_body poolLimit array s) = ret s ++ [Scheduled]).
      { unfold loop_body. repeat case_bool_decide; reflexivity. }
      unfold started_at. rewrite Hret.
      destruct (decide (i < length (ret s))%nat) as [Hlt | Hge].
      * rewrite lookup_app_l by exact Hlt. lia.
      * rewrite lookup_app_r by lia. rewrite (lookup_ge_None_2 (ret s)) by lia.
        destruct (i - length (ret s))%nat; simpl; lia.
    + destruct (existsb _ raced); inversion Hstep; subst. unfold started_at; simpl; lia.
    + destruct (values_of (ret s)); inversion Hstep; subst. unfold started_at; simpl; lia.
  - unfold step_call in Hstep.
    destruct (ret s !! j) as [[| | v | e]|] eqn:Hj; inversion Hstep; subst.
    erewrite (started_at_insert s _ i j _ Running Hj) by reflexivity. simpl.
    destruct (decide (j = i)) as [-> | Hne].
    + rewrite decide_True by reflexivity. unfold started_at. rewrite Hj. reflexivity.
    + rewrite decide_False by congruence. lia.
  - rewrite decide_False by discriminate.
    unfold step_settle in Hstep.
    destruct (ret s !! j) as [[| | v | e]|] eqn:Hj; try discriminate.
    destruct (array !! j) as [item|]; try discriminate.
    destruct (iteratorFn item (indexOf array item) (shared s)) as [[v | e |] σ];
      inversion Hstep; subst.
    + erewrite (started_at_insert s _ i j _ (Fulfilled v) Hj) by reflexivity. simpl.
      destruct (decide (j = i)) as [-> | Hne]; [| lia].
      unfold started_at. rewrite Hj. simpl. lia.
    + erewrite (started_at_insert s _ i j _ (Rejected e) Hj) by reflexivity. simpl.
      destruct (decide (j = i)) as [-> | Hne]; [| lia].
      unfold started_at. rewrite Hj. simpl. lia.
  - rewrite decide_False by discriminate.
    unfold step_splice in Hstep.
    destruct (ret s !! j) as [[| | v | e]|]; try discriminate.
    case_bool_decide; inversion Hstep; subst. unfold started_at; simpl; lia.
  - rewrite decide_False by discriminate.
    unfold step_raise in Hstep.
    destruct (ret s !! j) as [[| | v | e]|]; try discriminate.
    destruct (pc s); try discriminate.
    + case_bool_decide; inversion Hstep; subst. unfold started_at; simpl; lia.
    + inversion Hstep; subst. unfold started_at; simpl; lia.
Qed.

Lemma exec_started sched i : forall s s',
  execP sched s = Some s' -> started_at s' i = (started_at s i + calls i sched)%nat.
Proof.
  induction sched as [|ev sched IH]; intros s s' Hex; simpl in Hex.
  - inversion Hex; subst. unfold calls. simpl. lia.
  - destruct (stepP ev s) as [s1|] eqn:Hs; [| discriminate].
    rewrite (IH _ _ Hex), (step_started _ _ _ i Hs). unfold calls.
    rewrite filter_cons. destruct (decide (ev = Call i)); simpl; lia.
Qed.

Lemma started_at_le_1 (s : pool R St) i : (started_at s i <= 1)%nat.
Proof. unfold started_at. destruct (ret s !! i) as [p|]; [destruct (is_started p) |]; lia. Qed.
End PoolRuns.

Lemma sum_list_with_insert {T : Type} (f : T -> nat) (l : list T) :
  forall j p q, l !! j = Some p ->
  (sum_list_with f (<[j := q]> l) + f p = sum_list_with f l + f q)%nat.
Proof.
  induction l as [|x l IH]; intros j p q Hj; [discriminate |].
  destruct j as [|j]; simpl in *.
  - inversion Hj; subst. lia.
  - specialize (IH j p q Hj). lia.
Qed.

Section PoolProgress.
Context {A R St : Type} `{EqDecision A}.
Variable poolLimit : nat.
Variable array : list A.
Variable iteratorFn : A -> Z -> St -> outcome R * St.

Local Abbreviation Inv := (pool_inv poolLimit array iteratorFn).
Local Abbreviation stepP := (step poolLimit array iteratorFn).
Local Abbreviation execP := (exec poolLimit array iteratorFn).

(** Every step uses up some of the budget: no run is longer than the
    budget of the state it starts from. *)
Lemma step_budget ev s s' :
  stepP ev s = Some s' -> (budget array s' < budget array s)%nat.
Proof.
  intros Hstep. unfold budget.
  destruct ev as [| j | j | j | j]; cbn [step] in Hstep.
  - unfold step_main in Hstep. destruct (pc s) as [| raced | | vs | e]; try discriminate.
    + destruct (array !! length (ret s)) eqn:Hitem; inversion Hstep; subst; simpl; [| lia].
      apply lookup_lt_Some in Hitem.
      unfold loop_body. repeat case_bool_decide; simpl;
        rewrite ?length_app, ?sum_list_with_app; simpl; lia.
    + destruct (existsb _ raced); inversion Hstep; subst; simpl; lia.
    + destruct (values_of (ret s)); inversion Hstep; subst; simpl; lia.
  - unfold step_call in Hstep.
    destruct (ret s !! j) as [[| | v | e]|] eqn:Hj; inversion Hstep; subst; simpl.
    rewrite length_insert.
    pose proof (sum_list_with_insert promise_budget (ret s) j _ Running Hj). simpl in *. lia.
  - unfold step_settle in Hstep.
    destruct (ret s !! j) as [[| | v | e]|] eqn:Hj; try discriminate.
    destruct (array !! j) as [item|]; try discriminate.
    destruct (iteratorFn item (indexOf array item) (shared s)) as [[v | e |] σ];
      inversion Hstep; subst; simpl; rewrite length_insert.
    + pose proof (sum_list_with_insert promise_budget (ret s) j _ (Fulfilled v) Hj).
      simpl in *. lia.
    + pose proof (sum_list_with_insert promise_budget (ret s) j _ (Rejected e) Hj).
      simpl in *. lia.
  - unfold step_splice in Hstep.
    destruct (ret s !! j) as [[| | v | e]|]; try discriminate.
    case_bool_decide as Hin; inversion Hstep; subst; simpl.
    pose proof (splice1_indexOf_perm _ _ Hin) as Hperm.
    apply Permutation_length in Hperm. simpl in Hperm. lia.
  - unfold step_raise in Hstep.
    destruct (ret s !! j) as [[| | v | e]|]; try discriminate.
    destruct (pc s); try discriminate.
    + case_bool_decide; inversion Hstep; subst; simpl; lia.
    + inversion Hstep; subst; simpl; lia.
Qed.

Lemma exec_budget sched : forall s s',
  execP sched s = Some s' -> (length sched + budget array s' <= budget array s)%nat.
Proof.
  induction sched as [|ev sched IH]; intros s s' Hex; simpl in Hex.
  - inversion Hex; subst. simpl. lia.
  - destruct (stepP ev s) as [s1|] eqn:Hs; [| discriminate].
    apply step_budget in Hs. apply IH in Hex. simpl. lia.
Qed.

(** Tasks that settle keep the pool going: some event can happen as long
    as [asyncPool] has not settled. *)
Hypothesis tasks_settle : forall i item σ,
  array !! i = Some item -> (iteratorFn item (indexOf array item) σ).1 <> Pending.

Lemma unsettled_promise_steps s i p :
  Inv s -> ret s !! i = Some p -> is_fulfilled p = false ->
  (forall e, p = Rejected e -> exists s', stepP (Raise i) s = Some s') ->
  exists ev s', stepP ev s = Some s'.
Proof.
  intros HI Hi Hp Hrej. destruct p as [| | v | e]; try discriminate.
  - exists (Call i). cbn [step]. unfold step_call. rewrite Hi. eauto.
  - exists (Settle i). cbn [step]. unfold step_settle. rewrite Hi.
    assert (Hlt : (i < length array)%nat).
    { apply lookup_lt_Some in Hi. pose proof (inv_length _ _ _ _ HI). lia. }
    destruct (lookup_lt_is_Some_2 array i Hlt) as [item Hitem]. rewrite Hitem.
    pose proof (tasks_settle i item (shared s) Hitem) as Hs.
    destruct (iteratorFn item (indexOf array item) (shared s)) as [[v | e |] σ]; eauto.
    by destruct Hs.
  - destruct (Hrej e eq_refl) as [s' Hs']. eauto.
Qed.

Lemma pool_progress s :
  Inv s -> is_settled (pc s) = false -> exists ev s', stepP ev s = Some s'.
Proof.
  intros HI Hns. pose proof HI as [Hadm Hnd Hbd Htr Hun Hcap Hpc Hval].
  destruct (pc s) as [| raced | | vs | e] eqn:Hc; try discriminate.
  - exists Main. cbn [step]. unfold step_main. rewrite Hc.
    destruct (array !! length (ret s)); eauto.
  - destruct Hpc as (Hndr & Hlenr & Hne & Hsub & Hlt).
    destruct raced as [|i raced']; [done |].
    assert (Hi : (i < length (ret s))%nat) by (apply Hlt; left).
    destruct (lookup_lt_is_Some_2 _ _ Hi) as [p Hp].
    destruct (is_fulfilled p) eqn:Hf.
    + destruct p as [| | v |]; try discriminate.
      destruct (decide (i ∈ executing s)) as [Hin | Hnin].
      * exists (Splice i). cbn [step]. unfold step_splice. rewrite Hp.
        rewrite bool_decide_eq_true_2 by exact Hin. eauto.
      * exists Main. cbn [step]. unfold step_main. rewrite Hc.
        assert (Hex : existsb (e_fulfilled (ret s) (executing s)) (i :: raced') = true).
        { apply existsb_exists. exists i. split; [left; reflexivity |].
          unfold e_fulfilled. rewrite Hp. by apply bool_decide_eq_true_2. }
        rewrite Hex. eauto.
    + eapply unsettled_promise_steps; eauto.
      intros e ->. cbn [step]. unfold step_raise. rewrite Hp, Hc.
      rewrite bool_decide_eq_true_2 by left. eauto.
  - destruct (decide (Forall (fun p => is_fulfilled p = true) (ret s))) as [Hall | Hsome].
    + apply values_of_all_fulfilled in Hall as [vs Hvs].
      exists Main. cbn [step]. unfold step_main. rewrite Hc, Hvs. eauto.
    + apply not_Forall_Exists in Hsome; [| intros p; apply _].
      apply Exists_exists in Hsome as (p & Hin & Hp).
      apply list_elem_of_lookup in Hin as [i Hi].
      eapply unsettled_promise_steps; eauto.
      * by apply not_true_is_false.
      * intros e ->. cbn [step]. unfold step_raise. rewrite Hi, Hc. eauto.
Qed.

(** Hence every run can be carried on until [asyncPool] settles. *)
Lemma pool_completes_from n : forall s,
  (budget array s <= n)%nat -> Inv s ->
  exists sched s', execP sched s = Some s' /\ is_settled (pc s') = true.
Proof.
  induction n as [|n IH]; intros s Hb HI.
  - destruct (is_settled (pc s)) eqn:Hs; [exists [], s; done |].
    destruct (pool_progress s HI Hs) as (ev & s' & Hstep).
    apply step_budget in Hstep. lia.
  - destruct (is_settled (pc s)) eqn:Hs; [exists [], s; done |].
    destruct (pool_progress s HI Hs) as (ev & s1 & Hstep).
    destruct (IH s1) as (sched & s' & Hex & Hdone).
    + apply step_budget in Hstep. lia.
    + eapply pool_inv_step; eauto.
    + exists (ev :: sched), s'. simpl. rewrite Hstep. done.
Qed.

Lemma pool_completes s :
  Inv s -> exists sched s', execP sched s = Some s' /\ is_settled (pc s') = true.
Proof. intros HI. by apply (pool_completes_from (budget array s)). Qed.

(** Tasks that never reject leave no rejection to deliver. *)
Hypothesis tasks_fulfil : forall i item σ e σ',
  array !! i = Some item -> iteratorFn item (indexOf array item) σ <> (Throw e, σ').

Lemma no_rejection_step ev s s' :
  no_rejection s -> stepP ev s = Some s' -> no_rejection s'.
Proof.
  intros [Hret Hpc] Hstep. destruct ev as [| j | j | j | j]; cbn [step] in Hstep.
  - unfold step_main in Hstep. destruct (pc s) as [| raced | | vs | e] eqn:Hc; try discriminate.
    + destruct (array !! length (ret s)); inversion Hstep; subst; [| split; simpl; done].
      unfold loop_body. split.
      * intros i e Hi.
        assert (Hi' : (ret s ++ [Scheduled]) !! i = Some (Rejected e))
          by (revert Hi; repeat case_bool_decide; simpl; done).
        apply lookup_snoc_Some in Hi' as [[_ Hi'] | [_ Hi']]; [by eapply Hret | discriminate].
      * intros e. repeat case_bool_decide; simpl; done.
    + destruct (existsb _ raced); inversion Hstep; subst. split; simpl; done.
    + destruct (values_of (ret s)); inversion Hstep; subst. split; simpl; done.
  - unfold step_call in Hstep.
    destruct (ret s !! j) as [[| | v | e]|] eqn:Hj; inversion Hstep; subst.
    split; simpl; [| done]. intros i e Hi.
    destruct (decide (j = i)) as [-> | Hne].
    + rewrite list_lookup_insert_eq in Hi by (by eapply lookup_lt_Some). discriminate.
    + rewrite list_lookup_insert_ne in Hi by done. by eapply Hret.
  - unfold step_settle in Hstep.
    destruct (ret s !! j) as [[| | v | e]|] eqn:Hj; try discriminate.
    destruct (array !! j) as [item|] eqn:Hitem; try discriminate.
    destruct (iteratorFn item (indexOf array item) (shared s)) as [[v | e |] σ] eqn:Hf;
      inversion Hstep; subst.
    + split; simpl; [| done]. intros i e Hi.
      destruct (decide (j = i)) as [-> | Hne].
      * rewrite list_lookup_insert_eq in Hi by (by eapply lookup_lt_Some). discriminate.
      * rewrite list_lookup_insert_ne in Hi by done. by eapply Hret.
    + by apply (tasks_fulfil j item _ e σ Hitem) in Hf.
  - unfold step_splice in Hstep.
    destruct (ret s !! j) as [[| | v | e]|]; try discriminate.
    case_bool_decide; inversion Hstep; subst. split; simpl; done.
  - unfold step_raise in Hstep.
    destruct (ret s !! j) as [[| | v | e]|] eqn:Hj; try discriminate.
    by apply Hret in Hj.
Qed.

Lemma no_rejection_exec sched : forall s s',
  no_rejection s -> execP sched s = Some s' -> no_rejection s'.
Proof.
  induction sched as [|ev sched IH]; intros s s' Hn Hex; simpl in Hex.
  - by inversion Hex; subst.
  - destruct (stepP ev s) as [s1|] eqn:Hs; [| discriminate].
    eapply IH; [| exact Hex]. eapply no_rejection_step; eauto.
Qed.
(** So a pool without rejection can be run until it resolves. *)
Lemma pool_resolves s :
  Inv s -> no_rejection s ->
  exists sched s' vs, execP sched s = Some s' /\ pc s' = Resolved vs.
Proof.
  intros HI Hno. destruct (pool_completes s HI) as (sched & s' & Hex & Hdone).
  pose proof (no_rejection_exec sched s s' Hno Hex) as [_ Hpc].
  destruct (pc s') as [| raced | | vs | e] eqn:Hc; try discriminate.
  - by exists sched, s', vs.
  - by destruct (Hpc e).
Qed.
End PoolProgress.

(** A property [P] of the shared state that every task keeps, and a
    property [Q i] that the task of [array[i]] establishes when it fulfils
    and that no task undoes. *)
Section PoolShared.
Context {A R St : Type} `{EqDecision A}.
Variable poolLimit : nat.
Variable array : list A.
Variable iteratorFn : A -> Z -> St -> outcome R * St.
Variable P : St -> Prop.
Variable Q : nat -> St -> Prop.
Hypothesis P_task : forall item k σ, P σ -> P (iteratorFn item k σ).2.
Hypothesis Q_task : forall i item σ v σ',
  array !! i = Some item -> P σ ->
  iteratorFn item (indexOf array item) σ = (Return v, σ') -> Q i σ'.
Hypothesis Q_stable : forall i item k σ, P σ -> Q i σ -> Q i (iteratorFn item k σ).2.

Local Abbreviation stepP := (step poolLimit array iteratorFn).
Local Abbreviation execP := (exec poolLimit array iteratorFn).

Lemma shared_step ev s s' :
  stepP ev s = Some s' ->
  P (shared s) /\ (forall i v, ret s !! i = Some (Fulfilled v) -> Q i (shared s)) ->
  P (shared s') /\ (forall i v, ret s' !! i = Some (Fulfilled v) -> Q i (shared s')).
Proof.
  intros Hstep [HP HQ]. destruct ev as [| j | j | j | j]; cbn [step] in Hstep.
  - unfold step_main in Hstep. destruct (pc s) as [| raced | | vs | e]; try discriminate.
    + destruct (array !! length (ret s)); inversion Hstep; subst; [| done].
      assert (Hs : shared (loop_body poolLimit array s) = shared s)
        by (unfold loop_body; repeat case_bool_decide; reflexivity).
      assert (Hr : ret (loop_body poolLimit array s) = ret s ++ [Scheduled])
        by (unfold loop_body; repeat case_bool_decide; reflexivity).
      rewrite Hs, Hr. split; [done |]. intros i v Hi.
      apply lookup_snoc_Some in Hi as [[_ Hi] | [_ Hi]]; [eauto | discriminate].
    + destruct (existsb _ raced); inversion Hstep; subst. done.
    + destruct (values_of (ret s)); inversion Hstep; subst. done.
  - unfold step_call in Hstep.
    destruct (ret s !! j) as [[| | v | e]|] eqn:Hj; inversion Hstep; subst; simpl.
    split; [done |]. intros i v Hi. destruct (decide (j = i)) as [-> | Hne].
    + rewrite list_lookup_insert_eq in Hi by (by eapply lookup_lt_Some). discriminate.
    + rewrite list_lookup_insert_ne in Hi by done. eauto.
  - unfold step_settle in Hstep.
    destruct (ret s !! j) as [[| | v | e]|] eqn:Hj; try discriminate.
    destruct (array !! j) as [item|] eqn:Hitem; try discriminate.
    pose proof (P_task item (indexOf array item) (shared s) HP) as HP'.
    pose proof (fun i => Q_stable i item (indexOf array item) (shared s) HP) as HQ'.
    destruct (iteratorFn item (indexOf array item) (shared s)) as [[v | e |] σ] eqn:Hf;
      inversion Hstep; subst; simpl in *.
    + split; [done |]. intros i v' Hi. destruct (decide (j = i)) as [-> | Hne].
      * eapply (Q_task i item (shared s) v); eauto.
      * rewrite list_lookup_insert_ne in Hi by done. eauto.
    + split; [done |]. intros i v' Hi. destruct (decide (j = i)) as [-> | Hne].
      * rewrite list_lookup_insert_eq in Hi by (by eapply lookup_lt_Some). discriminate.
      * rewrite list_lookup_insert_ne in Hi by done. eauto.
  - unfold step_splice in Hstep.
    destruct (ret s !! j) as [[| | v | e]|]; try discriminate.
    case_bool_decide; inversion Hstep; subst. done.
  - unfold step_raise in Hstep.
    destruct (ret s !! j) as [[| | v | e]|]; try discriminate.
    destruct (pc s); try discriminate.
    + case_bool_decide; inversion Hstep; subst. done.
    + inversion Hstep; subst. done.
Qed.

Lemma shared_exec sched : forall s s',
  execP sched s = Some s' ->
  P (shared s) /\ (forall i v, ret s !! i = Some (Fulfilled v) -> Q i (shared s)) ->
  P (shared s') /\ (forall i v, ret s' !! i = Some (Fulfilled v) -> Q i (shared s')).
Proof.
  induction sched as [|ev sched IH]; intros s s' Hex HPQ; simpl in Hex.
  - by inversion Hex; subst.
  - destruct (stepP ev s) as [s1|] eqn:Hs; [| discriminate].
    eapply IH; [exact Hex |]. eapply shared_step; eauto.
Qed.
End PoolShared.

(** ** Sorting *)

Lemma sort_insert_perm {T : Type} (cmp : T -> T -> Z) x l : sort_insert cmp x l ≡ₚ x :: l.
Proof.
  induction l as [|y l IH]; simpl; [reflexivity |].
  destruct (cmp x y <=? 0); [reflexivity |].
  rewrite IH. apply perm_swap.
Qed.

Lemma js_sort_perm {T : Type} (cmp : T -> T -> Z) l : js_sort cmp l ≡ₚ l.
Proof.
  induction l as [|x l IH]; simpl; [reflexivity |].
  unfold js_sort in *. simpl. rewrite sort_insert_perm. by constructor.
Qed.

Lemma sort_insert_sorted x l :
  Sorted (fun a b => by_rap_desc a b <= 0) l ->
  Sorted (fun a b => by_rap_desc a b <= 0) (sort_insert by_rap_desc x l).
Proof.
  induction l as [|y l IH]; intros Hs; simpl.
  - repeat constructor.
  - destruct (by_rap_desc x y <=? 0) eqn:Hxy.
    + apply Z.leb_le in Hxy. constructor; [exact Hs | by constructor].
    + apply Z.leb_gt in Hxy. inversion Hs as [|? ? Hs' Hhd]; subst.
      constructor; [by apply IH |].
      destruct l as [|z l]; simpl.
      * constructor. unfold by_rap_desc in *. lia.
      * destruct (by_rap_desc x z <=? 0).
        -- constructor. unfold by_rap_desc in *. lia.
        -- inversion Hhd; subst. by constructor.
Qed.

Lemma js_sort_sorts : sorts_by by_rap_desc (@js_sort Ranked).
Proof.
  intros l. split; [apply js_sort_perm |].
  induction l as [|x l IH]; [constructor |].
  unfold js_sort in *. simpl. by apply sort_insert_sorted.
Qed.

Lemma Sorted_rap_desc l :
  Sorted (fun a b => by_rap_desc a b <= 0) l -> StronglySorted rap_desc l.
Proof.
  intros Hs. apply Sorted_StronglySorted.
  - intros a b c. unfold rap_desc. lia.
  - eapply Sorted_ind with (P := Sorted rap_desc); [constructor | | exact Hs].
    intros a l' _ IH Hhd. constructor; [exact IH |].
    destruct Hhd; constructor. unfold by_rap_desc, rap_desc in *. lia.
Qed.

Lemma same_rap_same_entry (l : list Ranked) a b :
  NoDup (map rap l) -> a ∈ l -> b ∈ l -> rap a = rap b -> a = b.
Proof.
  induction l as [|x l IH]; intros Hnd Ha Hb Hab; [inversion Ha |].
  simpl in Hnd. apply NoDup_cons in Hnd as [Hx Hnd].
  apply elem_of_cons in Ha as [-> | Ha]; apply elem_of_cons in Hb as [-> | Hb]; auto.
  - exfalso. apply Hx. rewrite Hab. apply list_elem_of_fmap. eauto.
  - exfalso. apply Hx. rewrite <- Hab. apply list_elem_of_fmap. eauto.
Qed.

(** Two descending arrangements of the same entries are the same when no
    two entries have the same score. *)
Lemma descending_unique (l1 : list Ranked) : forall l2,
  l1 ≡ₚ l2 -> NoDup (map rap l1) ->
  StronglySorted rap_desc l1 -> StronglySorted rap_desc l2 -> l1 = l2.
Proof.
  induction l1 as [|a l1 IH]; intros l2 Hperm Hnd Hs1 Hs2.
  - apply Permutation_nil in Hperm. by subst.
  - destruct l2 as [|b l2]; [by apply Permutation_sym, Permutation_nil_cons in Hperm |].
    assert (Hab : a = b).
    { apply (same_rap_same_entry (a :: l1)); [exact Hnd | left | rewrite Hperm; left |].
      apply StronglySorted_inv in Hs1 as [_ Hall1].
      apply StronglySorted_inv in Hs2 as [_ Hall2].
      rewrite Forall_forall in Hall1, Hall2.
      assert (Ha : a ∈ b :: l2) by (rewrite <- Hperm; left).
      assert (Hb : b ∈ a :: l1) by (rewrite Hperm; left).
      apply elem_of_cons in Ha as [-> | Ha]; [reflexivity |].
      apply elem_of_cons in Hb as [-> | Hb]; [reflexivity |].
      apply Hall2 in Ha. apply Hall1 in Hb.
      unfold rap_desc in *. lia. }
    subst b. f_equal. apply IH.
    + by apply Permutation_cons_inv in Hperm.
    + simpl in Hnd. by apply NoDup_cons in Hnd as [_ Hnd].
    + by apply StronglySorted_inv in Hs1 as [Hs1 _].
    + by apply StronglySorted_inv in Hs2 as [Hs2 _].
Qed.

(** ** The ranking pipeline *)

Lemma fetchUserRAP_outcome_world up fuel uid w w' :
  (fetchUserRAP up fuel uid w).1 = (fetchUserRAP up fuel uid w').1.
Proof. apply fetchUserRAP_loop_outcome_world. Qed.

Lemma rap_task_keeps up fuel w m k σ :
  rap_results_ok up fuel w σ -> rap_results_ok up fuel w (rap_task up fuel m k σ).2.
Proof.
  intros (Hres & Hst & Hwr). unfold rap_task.
  pose proof (fetchUserRAP_loop_storage up (userId m) fuel 0 "" σ.2) as [Hst' Hwr'].
  fold (fetchUserRAP up fuel (userId m) σ.2) in Hst', Hwr'.
  destruct (fetchUserRAP up fuel (userId m) σ.2) as [[v | e |] w'] eqn:Hf;
    unfold rap_results_ok; simpl in *;
    (split; [| split; congruence]); try exact Hres.
  intros uid v' Hlk w0. destruct (decide (userId m = uid)) as [<- | Hne].
  - rewrite lookup_insert_eq in Hlk. inversion Hlk; subst.
    rewrite (fetchUserRAP_outcome_world up fuel (userId m) w0 σ.2), Hf. reflexivity.
  - rewrite lookup_insert_ne in Hlk by done. by apply Hres.
Qed.

Lemma rap_task_records up fuel m k σ v σ' :
  rap_task up fuel m k σ = (Return v, σ') -> is_Some (σ'.1 !! userId m).
Proof.
  unfold rap_task.
  destruct (fetchUserRAP up fuel (userId m) σ.2) as [[r | e |] w']; intros Heq;
    inversion Heq; subst; simpl.
  rewrite lookup_insert_eq. eauto.
Qed.

Lemma rap_task_keeps_recorded up fuel m k σ uid :
  is_Some (σ.1 !! uid) -> is_Some ((rap_task up fuel m k σ).2.1 !! uid).
Proof.
  intros Hs. unfold rap_task.
  destruct (fetchUserRAP up fuel (userId m) σ.2) as [[r | e |] w']; simpl; try exact Hs.
  apply lookup_insert_is_Some. destruct (decide (userId m = uid)); auto.
Qed.

(** What a run of the pool leaves, whether it settles or not. *)
Lemma asyncPool_rap_results up fuel members sched w r σ :
  asyncPool CONCURRENCY_LIMIT members (rap_task up fuel) sched (∅, w) = (r, σ) ->
  rap_results_ok up fuel w σ /\
  (forall vs, r = Return vs -> forall m, m ∈ members -> is_Some (σ.1 !! userId m)).
Proof.
  unfold asyncPool.
  assert (Hinit : rap_results_ok up fuel w (∅, w)).
  { split; [| done]. intros uid v Hlk. simpl in Hlk. by rewrite lookup_empty in Hlk. }
  destruct (exec _ _ _ sched _) as [s|] eqn:Hex.
  - pose proof (shared_exec CONCURRENCY_LIMIT members (rap_task up fuel)
                  (rap_results_ok up fuel w)
                  (fun i σ => forall m, members !! i = Some m -> is_Some (σ.1 !! userId m))
                  (fun item k σ => rap_task_keeps up fuel w item k σ)) as Hsh.
    destruct (Hsh) with (sched := sched) (s := pool_init (R := unit) (∅ : gmap Z Z, w)) (s' := s)
      as [HP HQ].
    + intros i item σ0 v σ' Hitem _ Htask m Hm.
      assert (m = item) by congruence. subst. by eapply rap_task_records.
    + intros i item k σ0 _ HQ m Hm. apply rap_task_keeps_recorded. by apply HQ.
    + exact Hex.
    + split; [exact Hinit |]. intros i v Hi. simpl in Hi. by rewrite lookup_nil in Hi.
    + pose proof (pool_inv_exec CONCURRENCY_LIMIT members (rap_task up fuel)
                    sched _ _ (pool_inv_init _ _ _ _) Hex) as HI.
      pose proof (inv_pc _ _ _ _ HI) as Hpc.
      destruct (pc s) as [| raced | | vs | e]; intros Heq; inversion Heq; subst;
        (split; [exact HP |]); try discriminate.
      intros vs' _ m Hm. destruct Hpc as [Hvs Hlen].
      apply values_of_Some in Hvs as [Hlvs Hall].
      apply list_elem_of_lookup in Hm as [i Hi].
      assert (Hlt : (i < length vs)%nat) by (apply lookup_lt_Some in Hi; lia).
      destruct (lookup_lt_is_Some_2 _ _ Hlt) as [v Hv].
      apply (HQ i v); [| exact Hi]. rewrite Hall, Hv. reflexivity.
  - intros Heq; inversion Heq; subst. split; [exact Hinit | discriminate].
Qed.

(** A run of [processCommunity] that returns. *)
Lemma processCommunity_with_returns sort up fuel sched communityId w ranked w' :
  processCommunity_with sort up fuel sched communityId w = (Return ranked, w') ->
  exists members rapResults,
    (fetchAllMembers up fuel communityId w).1 = Return members /\
    (forall m, m ∈ members -> exists v, rapResults !! userId m = Some v /\
        forall w0, (fetchUserRAP up fuel (userId m) w0).1 = Return v) /\
    ranked = sort by_rap_desc (map (rank_entry rapResults) members) /\
    storage w' = {| lastCommunityId := Some communityId; lastResults := Some ranked |} /\
    writes w' = S (writes w).
Proof.
  unfold processCommunity_with.
  pose proof (fetchAllMembers_loop_storage up communityId fuel [] "" w) as [Hst Hwr].
  fold (fetchAllMembers up fuel communityId w) in Hst, Hwr.
  destruct (fetchAllMembers up fuel communityId w) as [[members | e |] w1]; try discriminate.
  destruct (asyncPool _ _ _ sched _) as [r [rapResults w2]] eqn:Hpool.
  apply asyncPool_rap_results in Hpool as [(Hres & Hst2 & Hwr2) Hall].
  destruct r as [vs | e |]; try discriminate.
  intros Heq; inversion Heq; subst. exists members, rapResults. simpl in *.
  split; [reflexivity |]. split; [| split; [reflexivity | split; [reflexivity | congruence]]].
  intros m Hm. destruct (Hall vs eq_refl m Hm) as [v Hv]. exists v. split; [exact Hv |].
  by apply Hres.
Qed.

(** A run of [processCommunity] that does not return leaves the storage
    area alone. *)
Lemma processCommunity_with_fails sort up fuel sched communityId w r w' :
  processCommunity_with sort up fuel sched communityId w = (r, w') ->
  (forall ranked, r <> Return ranked) ->
  storage w' = storage w /\ writes w' = writes w.
Proof.
  unfold processCommunity_with.
  pose proof (fetchAllMembers_loop_storage up communityId fuel [] "" w) as [Hst Hwr].
  fold (fetchAllMembers up fuel communityId w) in Hst, Hwr.
  destruct (fetchAllMembers up fuel communityId w) as [[members | e |] w1]; simpl in *.
  - destruct (asyncPool _ _ _ sched _) as [r0 [rapResults w2]] eqn:Hpool.
    apply asyncPool_rap_results in Hpool as [(Hres & Hst2 & Hwr2) Hall]. simpl in *.
    destruct r0 as [vs | e |]; intros Heq Hr; inversion Heq; subst.
    + by destruct (Hr _ eq_refl).
    + split; congruence.
    + split; congruence.
  - intros Heq _; inversion Heq; subst. done.
  - intros Heq _; inversion Heq; subst. done.
Qed.

(** ** The bounded executor *)

(** C1. For every list of N items and every limit K >= 1, in every state a
    call of asyncPool goes through, at most K tasks are started and not
    completed; no schedule calls the task twice for a position, nor for a
    position outside the list, and none is longer than 6 N + 2 events; when
    asyncPool resolves, the task has been called exactly once for each of
    the N positions and each of these N tasks is fulfilled; and when the
    tasks fulfil, some event can happen as long as asyncPool has not
    settled, and the run can be carried on until asyncPool resolves. *)
Theorem asyncPool_starts_each_once_within_limit
    {A R St : Type} `{EqDecision A} (poolLimit : nat) (array : list A)
    (iteratorFn : A -> Z -> St -> outcome R * St) (σ : St)
    (sched : list event) (s : pool R St) :
  (1 <= poolLimit)%nat ->
  exec poolLimit array iteratorFn sched (pool_init σ) = Some s ->
  (in_flight s <= poolLimit)%nat /\
  (forall i, (calls i sched <= 1)%nat /\ (calls i sched = 1%nat -> (i < length array)%nat)) /\
  (length sched <= 6 * length array + 2)%nat /\
  (forall vs, pc s = Resolved vs ->
     forall i, (i < length array)%nat ->
       calls i sched = 1%nat /\ exists v, ret s !! i = Some (Fulfilled v)) /\
  ((forall i item σ0, array !! i = Some item ->
      exists v σ', iteratorFn item (indexOf array item) σ0 = (Return v, σ')) ->
   (is_settled (pc s) = false -> exists ev s1, step poolLimit array iteratorFn ev s = Some s1) /\
   exists sched' s' vs,
     exec poolLimit array iteratorFn (sched ++ sched') (pool_init σ) = Some s' /\
     pc s' = Resolved vs).
Proof.
  intros Hpos Hex.
  pose proof (pool_inv_exec poolLimit array iteratorFn sched _ _
                (pool_inv_init poolLimit array iteratorFn σ) Hex) as HI.
  pose proof (fun i => exec_started poolLimit array iteratorFn sched i _ _ Hex) as Hcalls.
  assert (Hstarted : forall i, calls i sched = started_at s i).
  { intros i. rewrite (Hcalls i). unfold started_at. simpl. rewrite ?lookup_nil. done. }
  split; [by apply (pool_inv_in_flight poolLimit array iteratorFn) |].
  split; [| split; [| split]].
  - intros i. rewrite Hstarted. split; [apply started_at_le_1 |].
    unfold started_at. destruct (ret s !! i) as [p|] eqn:Hi; [| discriminate].
    intros _. apply lookup_lt_Some in Hi.
    pose proof (inv_length _ _ _ _ HI). lia.
  - pose proof (exec_budget poolLimit array iteratorFn sched _ _ Hex) as Hb.
    unfold budget in Hb at 2. simpl in Hb. lia.
  - intros vs Hpc i Hi. pose proof (inv_pc _ _ _ _ HI) as Hc. rewrite Hpc in Hc.
    destruct Hc as [Hvs Hlen]. apply values_of_Some in Hvs as [Hlvs Hall].
    assert (Hlt : (i < length vs)%nat) by lia.
    destruct (lookup_lt_is_Some_2 _ _ Hlt) as [v Hv].
    assert (Hret : ret s !! i = Some (Fulfilled v)) by (by rewrite Hall, Hv).
    split; [| eauto]. rewrite Hstarted. unfold started_at. by rewrite Hret.
  - intros Hfulfil.
    assert (Hsettle : forall i item σ0, array !! i = Some item ->
              (iteratorFn item (indexOf array item) σ0).1 <> Pending).
    { intros i item σ0 Hitem. destruct (Hfulfil i item σ0 Hitem) as (v & σ' & ->). discriminate. }
    assert (Hnothrow : forall i item σ0 e σ', array !! i = Some item ->
              iteratorFn item (indexOf array item) σ0 <> (Throw e, σ')).
    { intros i item σ0 e σ' Hitem. destruct (Hfulfil i item σ0 Hitem) as (v & σ1 & ->).
      discriminate. }
    split; [by apply (pool_progress poolLimit array iteratorFn Hsettle) |].
    destruct (pool_resolves poolLimit array iteratorFn Hsettle Hnothrow s)
      as (sched' & s' & vs & Hex' & Hpc); [exact HI | |].
    + eapply (no_rejection_exec poolLimit array iteratorFn Hnothrow); [| exact Hex].
      split; [intros i e; destruct i; discriminate | discriminate].
    + exists sched', s', vs. split; [| exact Hpc]. by rewrite exec_app, Hex.
Qed.

(** A pool of three items under a limit of two, observed while two tasks
    run and the third has not been admitted. *)
Lemma asyncPool_starts_each_once_within_limit_witness :
  (1 <= 2)%nat /\
  exists s, exec 2 [10; 20; 30] sum_task [Main; Main; Call 0; Call 1] (pool_init 0%nat) = Some s /\
    in_flight s = 2%nat /\ (in_flight s <= 2)%nat /\
    calls 0 [Main; Main; Call 0; Call 1] = 1%nat /\
    exists sched' s' vs,
      exec 2 [10; 20; 30] sum_task ([Main; Main; Call 0; Call 1] ++ sched') (pool_init 0%nat)
        = Some s' /\ pc s' = Resolved vs.
Proof.
  split; [lia |]. eexists. split; [reflexivity |].
  split; [reflexivity |].
  pose proof (asyncPool_starts_each_once_within_limit 2 [10; 20; 30] sum_task 0%nat
                [Main; Main; Call 0; Call 1] _ ltac:(lia) eq_refl)
    as (Hfl & _ & _ & _ & Hrun).
  split; [exact Hfl |]. split; [reflexivity |].
  apply Hrun. intros i item σ0 _. unfold sum_task. eauto.
Defined.

(** A task that rejects makes asyncPool reject, and the items not yet
    taken from the list are never started: the tasks are to handle their
    own failures. *)
Lemma asyncPool_rejecting_task_fails :
  asyncPool 1 [10; 20] failing_task [Main; Call 0; Settle 0; Raise 0] 0%nat =
    (Throw "boom", 1%nat) /\
  forall s, exec 1 [10; 20] failing_task [Main; Call 0; Settle 0; Raise 0] (pool_init 0%nat)
              = Some s ->
    step 1 [10; 20] failing_task Main s = None /\
    step 1 [10; 20] failing_task (Call 1) s = None.
Proof.
  split; [reflexivity |]. intros s Hs. vm_compute in Hs. inversion Hs; subst. split; reflexivity.
Qed.

(** C10. For every list and every limit, under every schedule, when
    asyncPool resolves it resolves with one value per item, in the order
    of the input: the value at a position is one the task returned for the
    item at that position; hence, for a task whose value depends on the
    item and its index only, the result is the list of these values in
    input order. *)
Theorem asyncPool_results_in_input_order
    {A R St : Type} `{EqDecision A} (poolLimit : nat) (array : list A)
    (iteratorFn : A -> Z -> St -> outcome R * St) (σ : St)
    (sched : list event) (vs : list R) (σ' : St) :
  asyncPool poolLimit array iteratorFn sched σ = (Return vs, σ') ->
  length vs = length array /\
  (forall i v, vs !! i = Some v ->
     exists item σ1 σ2, array !! i = Some item /\
       iteratorFn item (indexOf array item) σ1 = (Return v, σ2)) /\
  (forall f : A -> Z -> R,
     (forall item k σ1 v σ2, iteratorFn item k σ1 = (Return v, σ2) -> v = f item k) ->
     vs = map (fun item => f item (indexOf array item)) array).
Proof.
  unfold asyncPool. destruct (exec _ _ _ sched _) as [s|] eqn:Hex; [| discriminate].
  pose proof (pool_inv_exec poolLimit array iteratorFn sched _ _
                (pool_inv_init poolLimit array iteratorFn σ) Hex) as HI.
  pose proof (inv_pc _ _ _ _ HI) as Hc.
  destruct (pc s) as [| raced | | vs0 | e]; intros Heq; inversion Heq; subst.
  destruct Hc as [Hvs Hlen]. apply values_of_Some in Hvs as [Hlvs Hall].
  assert (Hat : forall i v, vs !! i = Some v ->
            exists item σ1 σ2, array !! i = Some item /\
              iteratorFn item (indexOf array item) σ1 = (Return v, σ2)).
  { intros i v Hv. apply (inv_values _ _ _ _ HI i v). by rewrite Hall, Hv. }
  split; [lia |]. split; [exact Hat |].
  intros f Hf. apply list_eq. intros i. rewrite list_lookup_fmap.
  destruct (vs !! i) as [v|] eqn:Hv.
  - destruct (Hat i v Hv) as (item & σ1 & σ2 & Hitem & Hrun).
    rewrite Hitem. simpl. f_equal. by eapply Hf.
  - apply lookup_ge_None in Hv. rewrite (lookup_ge_None_2 array) by lia. reflexivity.
Qed.

(** The same pool under a schedule in which the tasks complete in the
    order 1, 0, 2. *)
Lemma asyncPool_results_in_input_order_witness :
  asyncPool 2 [10; 20; 30] sum_task
    [Main; Main; Call 0; Call 1; Settle 1; Settle 0; Splice 1; Main; Main; Splice 0;
     Main; Main; Call 2; Settle 2; Main] 0%nat = (Return [10; 21; 32], 3%nat) /\
  [10; 21; 32] = map (fun item => item + indexOf [10; 20; 30] item) [10; 20; 30].
Proof.
  assert (Hrun : asyncPool 2 [10; 20; 30] sum_task
            [Main; Main; Call 0; Call 1; Settle 1; Settle 0; Splice 1; Main; Main; Splice 0;
             Main; Main; Call 2; Settle 2; Main] 0%nat = (Return [10; 21; 32], 3%nat))
    by reflexivity.
  split; [exact Hrun |].
  pose proof (asyncPool_results_in_input_order 2 [10; 20; 30] sum_task 0%nat _ _ _ Hrun)
    as (_ & _ & Hf).
  apply (Hf (fun item k => item + k)).
  intros item k σ1 v σ2 Heq. unfold sum_task in Heq. congruence.
Defined.

(** ** The paginated fetcher and the aggregator *)

Lemma fetchAllMembers_loop_requests up communityId cursor pages e :
  serves (groups_users up communityId) cursor pages e ->
  Forall (fun p => nextPageCursor p <> Some "") pages ->
  forall fuel members w, (length pages < fuel)%nat ->
  netlog (fetchAllMembers_loop up fuel communityId members cursor w).2 =
    netlog w ++ map (members_url communityId) (cursor :: omap nextPageCursor pages).
Proof.
  induction 1 as [c r p Hs Hok Hj Hn | c r Hs Hok | c r p next ps e Hs Hok Hj Hn Hrest IH];
    intros Hne fuel members w Hfuel.
  - destruct fuel as [|fuel]; [simpl in Hfuel; lia |].
    simpl. rewrite Hs, Hok, Hj, Hn. reflexivity.
  - destruct fuel as [|fuel]; [simpl in Hfuel; lia |].
    simpl. rewrite Hs, Hok. reflexivity.
  - destruct fuel as [|fuel]; [simpl in Hfuel; lia |].
    inversion Hne as [|? ? Hp Hps]; subst.
    assert (Hnext : next <> "") by congruence.
    cbn [fetchAllMembers_loop]. rewrite Hs, Hok, Hj, Hn.
    rewrite (truthy_Some _ Hnext). cbn [negb default].
    rewrite IH by (auto; simpl in Hfuel; lia).
    cbn [omap list_omap]. rewrite Hn. simpl. rewrite <- app_assoc. reflexivity.
Qed.

(** C5. When the roster source, asked from the empty cursor on and followed
    through each page's next cursor, serves a finite chain of pages that
    ends at a page without next cursor, fetchAllMembers returns the members
    of all the pages' entries, concatenated in page order, and has requested
    exactly the empty cursor and then each page's next cursor, in order. *)
Theorem fetchAllMembers_concatenates_pages up communityId pages fuel w :
  serves (groups_users up communityId) "" pages Finished ->
  (length pages < fuel)%nat ->
  (fetchAllMembers up fuel communityId w).1 =
    Return (map member_of_entry (items_of pages)) /\
  netlog (fetchAllMembers up fuel communityId w).2 =
    netlog w ++ map (members_url communityId) ("" :: omap nextPageCursor pages).
Proof.
  intros Hserves Hfuel. pose proof (serves_no_empty_next _ _ _ Hserves) as Hne.
  unfold fetchAllMembers. split.
  - by rewrite (fetchAllMembers_loop_serves up communityId "" pages Finished Hserves Hne).
  - by apply (fetchAllMembers_loop_requests up communityId "" pages Finished).
Qed.

Lemma scenario_roster_served :
  serves (groups_users scenario "42") ""
    [mkPage (Some [mkRosterEntry (mkUser 1 "A")]) (Some "c1");
     mkPage (Some [mkRosterEntry (mkUser 2 "B")]) None] Finished.
Proof.
  eapply serves_next; [reflexivity | reflexivity | reflexivity | reflexivity |].
  eapply serves_last; reflexivity.
Qed.

Lemma fetchAllMembers_concatenates_pages_witness :
  (fetchAllMembers scenario 3 "42" fresh_world).1 =
    Return [{| userId := 1; username := "A" |}; {| userId := 2; username := "B" |}] /\
  netlog (fetchAllMembers scenario 3 "42" fresh_world).2 =
    [members_url "42" ""; members_url "42" "c1"].
Proof.
  exact (fetchAllMembers_concatenates_pages scenario "42" _ 3 fresh_world
           scenario_roster_served ltac:(simpl; lia)).
Defined.

Lemma qualifying_total_low low :
  Forall (fun item => forall v, recentAveragePrice item = Some v -> v < LIMITED_THRESHOLD) low ->
  qualifying_total low = 0.
Proof.
  induction 1 as [|item low Hitem _ IH]; [reflexivity |].
  change (item :: low) with ([item] ++ low). rewrite qualifying_total_app, IH.
  unfold qualifying_total. destruct item as [[v|]]; simpl; [| reflexivity].
  rewrite filter_cons_False; [reflexivity |].
  specialize (Hitem v eq_refl). simpl. lia.
Qed.

(** C2. When the item source of a member serves a finite chain of pages,
    fetchUserRAP returns the sum of the values, over all items of all the
    pages, that are at least 10000; items whose value is below 10000 add
    nothing to it. *)
Theorem fetchUserRAP_sums_qualifying up uid pages fuel w :
  serves (collectibles up uid) "" pages Finished ->
  (length pages < fuel)%nat ->
  (fetchUserRAP up fuel uid w).1 = Return (qualifying_total (items_of pages)) /\
  (forall before low after,
     Forall (fun item => forall v, recentAveragePrice item = Some v -> v < LIMITED_THRESHOLD) low ->
     qualifying_total (before ++ low ++ after) = qualifying_total (before ++ after)).
Proof.
  intros Hserves Hfuel. split.
  - pose proof (serves_no_empty_next _ _ _ Hserves) as Hne. unfold fetchUserRAP.
    rewrite (fetchUserRAP_loop_serves up uid "" pages Finished Hserves Hne) by exact Hfuel.
    f_equal.
  - intros before low after Hlow.
    rewrite !qualifying_total_app, (qualifying_total_low low Hlow). lia.
Qed.

Lemma scenario_items_served :
  serves (collectibles scenario 2) ""
    [mkPage (Some [mkCollectible (Some 5000); mkCollectible (Some 12000); mkCollectible None])
       None] Finished.
Proof. eapply serves_last; reflexivity. Qed.

Lemma fetchUserRAP_sums_qualifying_witness :
  (fetchUserRAP scenario 2 2 fresh_world).1 = Return 12000.
Proof.
  exact (proj1 (fetchUserRAP_sums_qualifying scenario 2 _ 2 fresh_world
                  scenario_items_served ltac:(simpl; lia))).
Defined.

(** A page that is not a success ends the pagination of fetchUserRAP, which
    returns what it has summed so far. *)
Lemma fetchUserRAP_refused_returns_partial up uid pages st fuel w :
  serves (collectibles up uid) "" pages (Refused st) ->
  (length pages < fuel)%nat ->
  (fetchUserRAP up fuel uid w).1 = Return (qualifying_total (items_of pages)).
Proof.
  intros Hserves Hfuel. pose proof (serves_no_empty_next _ _ _ Hserves) as Hne.
  unfold fetchUserRAP.
  rewrite (fetchUserRAP_loop_serves up uid "" pages (Refused st) Hserves Hne) by exact Hfuel.
  f_equal.
Qed.

(** A fetch that rejects is not caught: fetchUserRAP raises. *)
Lemma fetchUserRAP_rejected_fetch_raises up uid e fuel w :
  collectibles up uid "" = Rejects e ->
  (fetchUserRAP up (S fuel) uid w).1 = Throw e.
Proof. intros Hrej. unfold fetchUserRAP. simpl. rewrite Hrej. reflexivity. Qed.

(** And then no schedule lets the ranking run return. *)
Lemma unreachable_member_fails_run sort up fuel communityId w members m e :
  (fetchAllMembers up fuel communityId w).1 = Return members ->
  m ∈ members ->
  (fetchUserRAP up fuel (userId m) w).1 = Throw e ->
  forall sched ranked w',
    processCommunity_with sort up fuel sched communityId w <> (Return ranked, w').
Proof.
  intros Hmembers Hm Hthrow sched ranked w' Hrun.
  apply processCommunity_with_returns in Hrun
    as (members' & rapResults & Hmembers' & Hscores & _).
  assert (members' = members) by congruence. subst members'.
  destruct (Hscores m Hm) as (v & _ & Hv). specialize (Hv w). congruence.
Qed.

(** C3. fetchUserRAP raises to its caller when the item source is
    unreachable: for member 3 of the scenario, whose collection cannot be
    fetched, it raises, and the ranking of community 77, which has this
    member, does not complete under any schedule; the one that lets the
    tasks run in order ends in failure with nothing persisted. *)
Theorem fetchUserRAP_raises_when_unreachable :
  (fetchUserRAP scenario 5 3 fresh_world).1 = Throw "Failed to fetch" /\
  (forall sched ranked w',
     processCommunity scenario 5 sched "77" fresh_world <> (Return ranked, w')) /\
  exists w',
    onMessage scenario 5 [Main; Main; Main; Call 0; Call 1; Settle 0; Settle 1; Raise 1]
      (FETCH_COMMUNITY "77") fresh_world = (Return (Failure "Failed to fetch"), w') /\
    storage w' = storage fresh_world.
Proof.
  split; [reflexivity |]. split.
  - apply (unreachable_member_fails_run _ scenario 5 "77" fresh_world
             [{| userId := 1; username := "A" |}; {| userId := 3; username := "C" |}]
             {| userId := 3; username := "C" |} "Failed to fetch").
    + reflexivity.
    + right. left.
    + reflexivity.
  - eexists. split; reflexivity.
Qed.

(** ** The ranking run and the listener *)

(** C4. When a roster page is not a success, the ranking run raises the
    error labelled with the status of that page, the listener replies with
    this failure, and the storage area is as before: no [set] was made on
    it. *)
Theorem roster_failure_aborts_without_write up communityId pages st fuel sched w :
  serves (groups_users up communityId) "" pages (Refused st) ->
  (length pages < fuel)%nat ->
  exists w',
    processCommunity up fuel sched communityId w =
      (Throw ("Failed to fetch members: " +:+ pretty st), w') /\
    onMessage up fuel sched (FETCH_COMMUNITY communityId) w =
      (Return (Failure ("Failed to fetch members: " +:+ pretty st)), w') /\
    storage w' = storage w /\ writes w' = writes w.
Proof.
  intros Hserves Hfuel. pose proof (serves_no_empty_next _ _ _ Hserves) as Hne.
  pose proof (fetchAllMembers_loop_serves up communityId "" pages (Refused st) Hserves Hne
                fuel [] w Hfuel) as Hthrow.
  pose proof (fetchAllMembers_loop_storage up communityId fuel [] "" w) as [Hst Hwr].
  fold (fetchAllMembers up fuel communityId w) in Hthrow, Hst, Hwr.
  exists (fetchAllMembers up fuel communityId w).2.
  assert (Hrun : processCommunity up fuel sched communityId w =
                 (Throw ("Failed to fetch members: " +:+ pretty st),
                  (fetchAllMembers up fuel communityId w).2)).
  { unfold processCommunity, processCommunity_with.
    destruct (fetchAllMembers up fuel communityId w) as [r w1]. simpl in *. by subst r. }
  split; [exact Hrun |]. split; [| by split].
  cbn [onMessage]. unfold respond. rewrite Hrun. reflexivity.
Qed.

Lemma scenario_roster_refused :
  serves (groups_users scenario "9") "" [] (Refused 404%N).
Proof.
  exact (serves_refused (groups_users scenario "9") "" (mkResponse false 404%N None)
           eq_refl eq_refl).
Qed.

Lemma roster_failure_aborts_without_write_witness :
  exists w',
    processCommunity scenario 1 [] "9" used_world = (Throw "Failed to fetch members: 404", w') /\
    onMessage scenario 1 [] (FETCH_COMMUNITY "9") used_world =
      (Return (Failure "Failed to fetch members: 404"), w') /\
    storage w' = storage used_world /\ writes w' = writes used_world.
Proof.
  exact (roster_failure_aborts_without_write scenario "9" [] 404%N 1 [] used_world
           scenario_roster_refused ltac:(simpl; lia)).
Defined.

(** When the roster is served to its end and the collection of every
    member is served, to its end or up to a page that is not a success,
    some schedule lets the ranking run return. *)
Lemma processCommunity_completes up fuel communityId w pages :
  serves (groups_users up communityId) "" pages Finished ->
  (length pages < fuel)%nat ->
  (forall entry, entry ∈ items_of pages ->
     exists ipages e, serves (collectibles up (user_userId (user entry))) "" ipages e /\
       (length ipages < fuel)%nat) ->
  exists sched ranked w', processCommunity up fuel sched communityId w = (Return ranked, w').
Proof.
  intros Hroster Hfuel Hitems.
  pose proof (serves_no_empty_next _ _ _ Hroster) as Hne.
  pose proof (fetchAllMembers_loop_serves up communityId "" pages Finished Hroster Hne
                fuel [] w Hfuel) as Hmembers.
  fold (fetchAllMembers up fuel communityId w) in Hmembers. simpl in Hmembers.
  set (members := map member_of_entry (items_of pages)) in *.
  assert (Htask : forall i m σ0, members !! i = Some m ->
            exists σ', rap_task up fuel m (indexOf members m) σ0 = (Return tt, σ')).
  { intros i m σ0 Hm. apply list_elem_of_lookup_2 in Hm.
    apply list_elem_of_fmap in Hm as (entry & -> & Hentry).
    destruct (Hitems entry Hentry) as (ipages & e & Hserved & Hlen).
    pose proof (serves_no_empty_next _ _ _ Hserved) as Hne'.
    pose proof (fetchUserRAP_loop_serves up _ "" ipages e Hserved Hne' fuel 0 σ0.2 Hlen) as Hrap.
    unfold rap_task. simpl. fold (fetchUserRAP up fuel (user_userId (user entry)) σ0.2) in Hrap.
    destruct (fetchUserRAP up fuel (user_userId (user entry)) σ0.2) as [r w1].
    simpl in Hrap. subst r. eauto. }
  destruct (pool_resolves CONCURRENCY_LIMIT members (rap_task up fuel)) with
    (s := pool_init (R := unit) (∅ : gmap Z Z, (fetchAllMembers up fuel communityId w).2))
    as (sched & s' & vs & Hex & Hpc).
  - intros i m σ0 Hm. destruct (Htask i m σ0 Hm) as [σ' ->]. discriminate.
  - intros i m σ0 e σ' Hm. destruct (Htask i m σ0 Hm) as [σ1 ->]. discriminate.
  - apply pool_inv_init.
  - split; [intros i e; destruct i; discriminate | discriminate].
  - exists sched. unfold processCommunity, processCommunity_with.
    destruct (fetchAllMembers up fuel communityId w) as [r w1]. simpl in Hmembers, Hex. subst r.
    unfold asyncPool. rewrite Hex, Hpc. destruct (shared s') as [rapResults w2]. eauto.
Qed.

(** C6. The sequence a ranking run returns is non-increasing in score, and
    it holds, for each member of the roster, the entry with the member's
    name and the score recorded under the member's identifier, or 0 when
    none is recorded; the recorded score is the one fetchUserRAP returned
    for that identifier. *)
Theorem processCommunity_ranked_descending up fuel sched communityId w ranked w' :
  processCommunity up fuel sched communityId w = (Return ranked, w') ->
  StronglySorted rap_desc ranked /\
  exists (members : list Member) (rapResults : gmap Z Z),
    (fetchAllMembers up fuel communityId w).1 = Return members /\
    ranked ≡ₚ map (fun m => {| r_username := username m;
                               rap := default 0 (rapResults !! userId m) |}) members /\
    (forall m, m ∈ members -> exists v, rapResults !! userId m = Some v /\
        (fetchUserRAP up fuel (userId m) w).1 = Return v).
Proof.
  intros Hrun. unfold processCommunity in Hrun.
  apply processCommunity_with_returns in Hrun
    as (members & rapResults & Hmembers & Hscores & -> & _).
  destruct (js_sort_sorts (map (rank_entry rapResults) members)) as [Hperm Hsorted].
  split; [by apply Sorted_rap_desc |].
  exists members, rapResults. split; [exact Hmembers |]. split.
  - rewrite Hperm.
    assert (Heq : map (rank_entry rapResults) members =
                  map (fun m => {| r_username := username m;
                                   rap := default 0 (rapResults !! userId m) |}) members).
    { apply map_ext. intros m. unfold rank_entry. by destruct (rapResults !! userId m). }
    by rewrite Heq.
  - intros m Hm. destruct (Hscores m Hm) as (v & Hv & Hret). eauto.
Qed.

Lemma processCommunity_ranked_descending_witness :
  processCommunity scenario 5 [Main; Main; Main; Call 0; Call 1; Settle 1; Settle 0; Main]
    "42" fresh_world =
    (Return [{| r_username := "A"; rap := 15000 |}; {| r_username := "B"; rap := 12000 |}],
     storage_set "42"
       [{| r_username := "A"; rap := 15000 |}; {| r_username := "B"; rap := 12000 |}]
       {| storage := storage fresh_world; writes := 0;
          netlog := [members_url "42" ""; members_url "42" "c1";
                     collectibles_url 2 ""; collectibles_url 1 ""] |}) /\
  StronglySorted rap_desc
    [{| r_username := "A"; rap := 15000 |}; {| r_username := "B"; rap := 12000 |}].
Proof.
  assert (Hrun : processCommunity scenario 5
            [Main; Main; Main; Call 0; Call 1; Settle 1; Settle 0; Main] "42" fresh_world =
          (Return [{| r_username := "A"; rap := 15000 |}; {| r_username := "B"; rap := 12000 |}],
           storage_set "42"
             [{| r_username := "A"; rap := 15000 |}; {| r_username := "B"; rap := 12000 |}]
             {| storage := storage fresh_world; writes := 0;
                netlog := [members_url "42" ""; members_url "42" "c1";
                           collectibles_url 2 ""; collectibles_url 1 ""] |}))
    by reflexivity.
  split; [exact Hrun |].
  exact (proj1 (processCommunity_ranked_descending scenario 5 _ "42" fresh_world _ _ Hrun)).
Defined.

(** C7. A ranking run that returns has set the storage area to the
    requested identifier and the returned sequence, whatever it held
    before, by one [set]; for a roster without members the run returns the
    empty sequence, and persists it. *)
Theorem processCommunity_persists_snapshot up fuel communityId w :
  (forall sched ranked w',
     processCommunity up fuel sched communityId w = (Return ranked, w') ->
     storage w' = {| lastCommunityId := Some communityId; lastResults := Some ranked |} /\
     writes w' = S (writes w)) /\
  ((fetchAllMembers up fuel communityId w).1 = Return [] ->
   exists w',
     processCommunity up fuel [Main; Main] communityId w = (Return [], w') /\
     storage w' = {| lastCommunityId := Some communityId; lastResults := Some [] |}).
Proof.
  split.
  - intros sched ranked w' Hrun. unfold processCommunity in Hrun.
    apply processCommunity_with_returns in Hrun as (_ & _ & _ & _ & _ & Hst & Hwr). by split.
  - intros Hempty. unfold processCommunity, processCommunity_with.
    destruct (fetchAllMembers up fuel communityId w) as [r w1]. simpl in Hempty. subst r.
    eexists. split; reflexivity.
Qed.

Lemma processCommunity_persists_snapshot_witness :
  exists w',
    processCommunity scenario 2 [Main; Main] "0" used_world = (Return [], w') /\
    storage w' = {| lastCommunityId := Some "0"; lastResults := Some [] |}.
Proof.
  exact (proj2 (processCommunity_persists_snapshot scenario 2 "0" used_world) eq_refl).
Defined.




(** C9. Two ranking runs of the same community against the same upstream
    data return the same sequence when no two scores in it are equal,
    whatever the order in which the tasks complete in either run, whatever
    the storage held before, and whichever way the engine's sort arranges
    entries within the order of the comparator. *)
Theorem rankCommunity_deterministic up communityId sort1 sort2
    fuel1 fuel2 sched1 sched2 w1 w2 ranked1 ranked2 w1' w2' :
  sorts_by by_rap_desc sort1 -> sorts_by by_rap_desc sort2 ->
  processCommunity_with sort1 up fuel1 sched1 communityId w1 = (Return ranked1, w1') ->
  processCommunity_with sort2 up fuel2 sched2 communityId w2 = (Return ranked2, w2') ->
  NoDup (map rap ranked1) ->
  ranked1 = ranked2.
Proof.
  intros Hsort1 Hsort2 Hrun1 Hrun2 Hdistinct.
  apply processCommunity_with_returns in Hrun1 as (members1 & rr1 & Hm1 & Hs1 & -> & _).
  apply processCommunity_with_returns in Hrun2 as (members2 & rr2 & Hm2 & Hs2 & -> & _).
  assert (Hmembers : members1 = members2).
  { assert (Heq : (fetchAllMembers up fuel1 communityId w1).1 =
                  (fetchAllMembers up fuel2 communityId w2).1)
      by (apply fetchAllMembers_settles_alike; congruence).
    congruence. }
  subst members2.
  assert (Hentries : map (rank_entry rr1) members1 = map (rank_entry rr2) members1).
  { apply map_ext_in. intros m Hm. apply list_elem_of_In in Hm.
    destruct (Hs1 m Hm) as (v1 & Hv1 & Hr1). destruct (Hs2 m Hm) as (v2 & Hv2 & Hr2).
    unfold rank_entry. rewrite Hv1, Hv2. simpl. f_equal.
    assert (Heq : (fetchUserRAP up fuel1 (userId m) w1).1 =
                  (fetchUserRAP up fuel2 (userId m) w1).1)
      by (apply fetchUserRAP_settles_alike; rewrite ?Hr1, ?Hr2; discriminate).
    rewrite Hr1, Hr2 in Heq. congruence. }
  rewrite <- Hentries.
  destruct (Hsort1 (map (rank_entry rr1) members1)) as [Hp1 Hsd1].
  destruct (Hsort2 (map (rank_entry rr1) members1)) as [Hp2 Hsd2].
  apply descending_unique; [by rewrite Hp1, Hp2 | exact Hdistinct | |]; by apply Sorted_rap_desc.
Qed.

Lemma rankCommunity_deterministic_witness :
  processCommunity scenario 5 [Main; Main; Main; Call 0; Call 1; Settle 0; Settle 1; Main]
    "42" fresh_world =
    (Return [{| r_username := "A"; rap := 15000 |}; {| r_username := "B"; rap := 12000 |}],
     storage_set "42"
       [{| r_username := "A"; rap := 15000 |}; {| r_username := "B"; rap := 12000 |}]
       {| storage := storage fresh_world; writes := 0;
          netlog := [members_url "42" ""; members_url "42" "c1";
                     collectibles_url 1 ""; collectibles_url 2 ""] |}) /\
  forall ranked2 w2',
    processCommunity scenario 7 [Main; Main; Main; Call 1; Settle 1; Call 0; Settle 0; Main]
      "42" used_world = (Return ranked2, w2') ->
    [{| r_username := "A"; rap := 15000 |}; {| r_username := "B"; rap := 12000 |}] = ranked2.
Proof.
  assert (Hrun : processCommunity scenario 5
            [Main; Main; Main; Call 0; Call 1; Settle 0; Settle 1; Main] "42" fresh_world =
          (Return [{| r_username := "A"; rap := 15000 |}; {| r_username := "B"; rap := 12000 |}],
           storage_set "42"
             [{| r_username := "A"; rap := 15000 |}; {| r_username := "B"; rap := 12000 |}]
             {| storage := storage fresh_world; writes := 0;
                netlog := [members_url "42" ""; members_url "42" "c1";
                           collectibles_url 1 ""; collectibles_url 2 ""] |}))
    by reflexivity.
  split; [exact Hrun |]. intros ranked2 w2' Hrun2.
  refine (rankCommunity_deterministic scenario "42" (@js_sort Ranked) (@js_sort Ranked)
            5 7 _ _ fresh_world used_world _ ranked2 _ w2'
            js_sort_sorts js_sort_sorts Hrun Hrun2 _).
  simpl. repeat constructor; rewrite ?list_elem_of_singleton; [discriminate | inversion 1].
Defined.

(** * Further properties of the code *)

(** ** More on the fetchers *)

Lemma fetchUserRAP_loop_requests up uid cursor pages e :
  serves (collectibles up uid) cursor pages e ->
  Forall (fun p => nextPageCursor p <> Some "") pages ->
  forall fuel rap0 w, (length pages < fuel)%nat ->
  netlog (fetchUserRAP_loop up fuel uid rap0 cursor w).2 =
    netlog w ++ map (collectibles_url uid) (cursor :: omap nextPageCursor pages).
Proof.
  induction 1 as [c r p Hs Hok Hj Hn | c r Hs Hok | c r p next ps e Hs Hok Hj Hn Hrest IH];
    intros Hne fuel rap0 w Hfuel.
  - destruct fuel as [|fuel]; [simpl in Hfuel; lia |].
    simpl. rewrite Hs, Hok, Hj, Hn. reflexivity.
  - destruct fuel as [|fuel]; [simpl in Hfuel; lia |].
    simpl. rewrite Hs, Hok. reflexivity.
  - destruct fuel as [|fuel]; [simpl in Hfuel; lia |].
    inversion Hne as [|? ? Hp Hps]; subst.
    assert (Hnext : next <> "") by congruence.
    cbn [fetchUserRAP_loop]. rewrite Hs, Hok, Hj, Hn.
    rewrite (truthy_Some _ Hnext). cbn [negb default].
    rewrite IH by (auto; simpl in Hfuel; lia).
    cbn [omap list_omap]. rewrite Hn. simpl. rewrite <- app_assoc. reflexivity.
Qed.

(** X1. When a page of a member's items is not a success, fetchUserRAP
    does not raise: it returns the qualifying total of the pages served
    before it (0 when the first page is refused), and it has asked for the
    refused page once and for nothing after it. *)
Theorem fetchUserRAP_partial_on_refusal up uid pages st fuel w :
  serves (collectibles up uid) "" pages (Refused st) ->
  (length pages < fuel)%nat ->
  (fetchUserRAP up fuel uid w).1 = Return (qualifying_total (items_of pages)) /\
  netlog (fetchUserRAP up fuel uid w).2 =
    netlog w ++ map (collectibles_url uid) ("" :: omap nextPageCursor pages) /\
  length (netlog (fetchUserRAP up fuel uid w).2) = (length (netlog w) + length pages + 1)%nat.
Proof.
  intros Hserves Hfuel. pose proof (serves_no_empty_next _ _ _ Hserves) as Hne.
  unfold fetchUserRAP.
  pose proof (fetchUserRAP_loop_requests up uid "" pages _ Hserves Hne fuel 0 w Hfuel) as Hlog.
  split; [| split; [exact Hlog |]].
  - rewrite (fetchUserRAP_loop_serves up uid "" pages (Refused st) Hserves Hne) by exact Hfuel.
    f_equal.
  - rewrite Hlog, length_app, length_map. simpl.
    assert (Hcursors : length (omap nextPageCursor pages) = length pages).
    { clear -Hserves. remember (Refused st) as e eqn:He.
      induction Hserves as [| | c r p next ps e Hs Hok Hj Hn Hrest IH]; try discriminate.
      - reflexivity.
      - cbn [omap list_omap]. rewrite Hn. cbn [length]. f_equal. exact (IH He). }
    lia.
Qed.

Lemma patchy_items_refused :
  serves (collectibles patchy 1) ""
    [mkPage (Some [mkCollectible (Some 20000); mkCollectible (Some 3000)]) (Some "n1")]
    (Refused 429%N).
Proof.
  eapply serves_next; [reflexivity | reflexivity | reflexivity | reflexivity |].
  exact (serves_refused (collectibles patchy 1) "n1" (mkResponse false 429%N None)
           eq_refl eq_refl).
Qed.

Lemma fetchUserRAP_partial_on_refusal_witness :
  (fetchUserRAP patchy 3 1 fresh_world).1 = Return 20000 /\
  netlog (fetchUserRAP patchy 3 1 fresh_world).2 =
    [collectibles_url 1 ""; collectibles_url 1 "n1"].
Proof.
  destruct (fetchUserRAP_partial_on_refusal patchy 1 _ 429%N 3 fresh_world
              patchy_items_refused ltac:(simpl; lia)) as (Hret & Hlog & _).
  split; [exact Hret | exact Hlog].
Defined.

Lemma add_page_range items : forall rap0,
  rap0 = 0 \/ LIMITED_THRESHOLD <= rap0 ->
  add_page rap0 items = 0 \/ LIMITED_THRESHOLD <= add_page rap0 items.
Proof.
  unfold add_page, LIMITED_THRESHOLD.
  induction items as [|item items IH]; intros rap0 Hr; [exact Hr |].
  simpl. apply IH.
  destruct (or_zero (recentAveragePrice item) >=? 10000) eqn:Hp; [| exact Hr].
  rewrite Z.geb_leb in Hp. apply Z.leb_le in Hp. lia.
Qed.

Lemma fetchUserRAP_loop_range up uid fuel : forall rap0 cursor w v,
  rap0 = 0 \/ LIMITED_THRESHOLD <= rap0 ->
  (fetchUserRAP_loop up fuel uid rap0 cursor w).1 = Return v ->
  v = 0 \/ LIMITED_THRESHOLD <= v.
Proof.
  induction fuel as [|fuel IH]; intros rap0 cursor w v Hr; [discriminate |].
  cbn [fetchUserRAP_loop].
  destruct (collectibles up uid cursor) as [e | r]; [discriminate |].
  destruct (ok r); cbn [negb].
  - destruct (json r) as [p |]; [| discriminate].
    pose proof (add_page_range (or_empty (data p)) rap0 Hr) as Hr'.
    destruct (truthy (nextPageCursor p)); cbn [negb].
    + by apply IH.
    + simpl. intros Heq; inversion Heq; by subst.
  - simpl. intros Heq; inversion Heq; by subst.
Qed.

(** X2. Whatever the source serves, a score that fetchUserRAP returns is
    0 or at least 10000, never negative and never in between; so is every
    score of a ranking that processCommunity returns. *)
Theorem scores_zero_or_qualifying up fuel :
  (forall uid w v, (fetchUserRAP up fuel uid w).1 = Return v ->
     v = 0 \/ LIMITED_THRESHOLD <= v) /\
  (forall sched communityId w ranked w',
     processCommunity up fuel sched communityId w = (Return ranked, w') ->
     forall entry, entry ∈ ranked -> rap entry = 0 \/ LIMITED_THRESHOLD <= rap entry).
Proof.
  split.
  - intros uid w v. apply fetchUserRAP_loop_range. by left.
  - intros sched communityId w ranked w' Hrun entry Hentry. unfold processCommunity in Hrun.
    apply processCommunity_with_returns in Hrun as (members & rr & _ & Hscores & -> & _).
    rewrite js_sort_perm in Hentry.
    apply list_elem_of_fmap in Hentry as (m & -> & Hm).
    destruct (Hscores m Hm) as (v & Hv & Hret). unfold rank_entry. rewrite Hv. simpl.
    apply (fetchUserRAP_loop_range up (userId m) fuel 0 "" w v); [by left | apply Hret].
Qed.

Lemma scores_zero_or_qualifying_witness :
  (fetchUserRAP scenario 2 2 fresh_world).1 = Return 12000 /\
  (12000 = 0 \/ LIMITED_THRESHOLD <= 12000).
Proof.
  split; [reflexivity |].
  exact (proj1 (scores_zero_or_qualifying scenario 2) 2 fresh_world 12000 eq_refl).
Defined.

(** X3. A page whose next cursor is the empty string ends the pagination
    like a page without next cursor: fetchAllMembers returns the entries
    read so far with those of this page, and fetchUserRAP the total so far
    with that of this page, after this one request. *)
Theorem pagination_ends_at_empty_cursor up :
  (forall communityId r page_ fuel w,
     groups_users up communityId "" = Responds r -> ok r = true -> json r = Some page_ ->
     nextPageCursor page_ = Some "" ->
     fetchAllMembers up (S fuel) communityId w =
       (Return (map member_of_entry (or_empty (data page_))),
        log_fetch (members_url communityId "") w)) /\
  (forall uid r page_ fuel w,
     collectibles up uid "" = Responds r -> ok r = true -> json r = Some page_ ->
     nextPageCursor page_ = Some "" ->
     fetchUserRAP up (S fuel) uid w =
       (Return (qualifying_total (or_empty (data page_))),
        log_fetch (collectibles_url uid "") w)).
Proof.
  split.
  - intros communityId r page_ fuel w Hs Hok Hj Hn. unfold fetchAllMembers.
    cbn [fetchAllMembers_loop]. rewrite Hs, Hok, Hj, Hn. reflexivity.
  - intros uid r page_ fuel w Hs Hok Hj Hn. unfold fetchUserRAP.
    cbn [fetchUserRAP_loop]. rewrite Hs, Hok, Hj, Hn. cbn [negb truthy String.eqb].
    rewrite add_page_total. reflexivity.
Qed.

Lemma pagination_ends_at_empty_cursor_witness :
  fetchAllMembers patchy 4 "5" fresh_world =
    (Return [{| userId := 1; username := "A" |}], log_fetch (members_url "5" "") fresh_world) /\
  fetchUserRAP patchy 4 6 fresh_world =
    (Return 11000, log_fetch (collectibles_url 6 "") fresh_world).
Proof.
  split.
  - exact (proj1 (pagination_ends_at_empty_cursor patchy) "5"
             (mkResponse true 200%N (Some (mkPage (Some [mkRosterEntry (mkUser 1 "A")]) (Some ""))))
             _ 3%nat fresh_world eq_refl eq_refl eq_refl eq_refl).
  - exact (proj2 (pagination_ends_at_empty_cursor patchy) 6
             (mkResponse true 200%N (Some (mkPage (Some [mkCollectible (Some 11000)]) (Some ""))))
             _ 3%nat fresh_world eq_refl eq_refl eq_refl eq_refl).
Defined.

(** ** More on the listener *)

(** X4. The listener never raises. When it replies with a list, the
    storage area holds this very list, set once; when it replies with a
    failure or does not reply, the storage area is as it was. *)
Theorem onMessage_reply_and_cache up fuel sched message w reply w' :
  onMessage up fuel sched message w = (reply, w') ->
  match reply with
  | Return (Success list_) =>
      lastResults (storage w') = Some list_ /\ writes w' = S (writes w)
  | Return (Failure _) | Pending => storage w' = storage w /\ writes w' = writes w
  | Throw _ => False
  end.
Proof.
  assert (Hrespond : forall communityId,
            respond up fuel sched communityId w = (reply, w') ->
            match reply with
            | Return (Success list_) =>
                lastResults (storage w') = Some list_ /\ writes w' = S (writes w)
            | Return (Failure _) | Pending => storage w' = storage w /\ writes w' = writes w
            | Throw _ => False
            end).
  { intros communityId. unfold respond, processCommunity.
    destruct (processCommunity_with _ up fuel sched communityId w) as [r w1] eqn:Hrun.
    destruct r as [ranked | e |]; intros Heq; inversion Heq; subst.
    - apply processCommunity_with_returns in Hrun as (_ & _ & _ & _ & _ & Hst & Hwr).
      by rewrite Hst.
    - by apply (processCommunity_with_fails _ _ _ _ _ _ _ _ Hrun).
    - by apply (processCommunity_with_fails _ _ _ _ _ _ _ _ Hrun). }
  destruct message as [communityId | |]; cbn [onMessage].
  - apply Hrespond.
  - destruct (truthy (lastCommunityId (storage w))); [apply Hrespond |].
    intros Heq; inversion Heq; by subst.
  - intros Heq; inversion Heq; by subst.
Qed.

Lemma onMessage_reply_and_cache_witness :
  lastResults (storage (onMessage scenario 5
      [Main; Main; Main; Call 0; Call 1; Settle 0; Settle 1; Main]
      (FETCH_COMMUNITY "42") fresh_world).2) =
    Some [{| r_username := "A"; rap := 15000 |}; {| r_username := "B"; rap := 12000 |}].
Proof.
  exact (proj1 (onMessage_reply_and_cache scenario 5
           [Main; Main; Main; Call 0; Call 1; Settle 0; Settle 1; Main]
           (FETCH_COMMUNITY "42") fresh_world
           (Return (Success [{| r_username := "A"; rap := 15000 |};
                             {| r_username := "B"; rap := 12000 |}])) _ eq_refl)).
Defined.

(** ** More on the pool *)

Section PoolEdges.
Context {A R St : Type} `{EqDecision A}.
Variable poolLimit : nat.
Variable array : list A.
Variable iteratorFn : A -> Z -> St -> outcome R * St.

Local Abbreviation stepP := (step poolLimit array iteratorFn).
Local Abbreviation execP := (exec poolLimit array iteratorFn).

(** With a limit above the length of the list, nothing is ever raced. *)
Lemma unthrottled_step ev s s' :
  (length array < poolLimit)%nat ->
  (forall raced, pc s <> AwaitRace raced) ->
  stepP ev s = Some s' -> forall raced, pc s' <> AwaitRace raced.
Proof.
  intros Hlim Hpc Hstep. destruct ev as [| j | j | j | j]; cbn [step] in Hstep.
  - unfold step_main in Hstep. destruct (pc s) as [| raced | | vs | e] eqn:Hc; try discriminate.
    + destruct (array !! length (ret s)); inversion Hstep; subst; [| done].
      unfold loop_body. rewrite bool_decide_eq_false_2 by lia. done.
    + by destruct (Hpc raced).
    + destruct (values_of (ret s)); inversion Hstep; subst. done.
  - unfold step_call in Hstep.
    destruct (ret s !! j) as [[| | v | e]|]; inversion Hstep; subst. exact Hpc.
  - unfold step_settle in Hstep.
    destruct (ret s !! j) as [[| | v | e]|]; try discriminate.
    destruct (array !! j) as [item|]; try discriminate.
    destruct (iteratorFn item (indexOf array item) (shared s)) as [[v | e |] σ];
      inversion Hstep; subst; exact Hpc.
  - unfold step_splice in Hstep.
    destruct (ret s !! j) as [[| | v | e]|]; try discriminate.
    case_bool_decide; inversion Hstep; subst. exact Hpc.
  - unfold step_raise in Hstep.
    destruct (ret s !! j) as [[| | v | e]|]; try discriminate.
    destruct (pc s); try discriminate.
    + case_bool_decide; inversion Hstep; subst. done.
    + inversion Hstep; subst. done.
Qed.

Lemma unthrottled_exec sched : forall s s',
  (length array < poolLimit)%nat ->
  (forall raced, pc s <> AwaitRace raced) ->
  execP sched s = Some s' -> forall raced, pc s' <> AwaitRace raced.
Proof.
  induction sched as [|ev sched IH]; intros s s' Hlim Hpc Hex; simpl in Hex.
  - by inversion Hex; subst.
  - destruct (stepP ev s) as [s1|] eqn:Hs; [| discriminate].
    eapply IH; [exact Hlim | | exact Hex]. eapply unthrottled_step; eauto.
Qed.

Lemma unthrottled_intake σ k :
  (length array < poolLimit)%nat -> (k <= length array)%nat ->
  execP (replicate k Main) (pool_init σ) = Some (mkPool (replicate k Scheduled) [] AtLoop σ).
Proof.
  intros Hlim. induction k as [|k IH]; intros Hk; [reflexivity |].
  rewrite replicate_S_end, exec_app, IH by lia. simpl.
  unfold step_main. simpl. rewrite length_replicate.
  destruct (lookup_lt_is_Some_2 array k ltac:(lia)) as [item ->].
  unfold loop_body. simpl. rewrite bool_decide_eq_false_2 by lia.
  by rewrite <- replicate_S_end.
Qed.

(** What has been rejected was rejected by a task, and a failure of
    [asyncPool] is the rejection of one of its promises. *)
Lemma rejection_step ev s s' :
  stepP ev s = Some s' ->
  (forall i e, ret s !! i = Some (Rejected e) ->
     exists item σ σ', array !! i = Some item /\
       iteratorFn item (indexOf array item) σ = (Throw e, σ')) /\
  (forall e, pc s = Failed e -> exists i, ret s !! i = Some (Rejected e)) ->
  (forall i e, ret s' !! i = Some (Rejected e) ->
     exists item σ σ', array !! i = Some item /\
       iteratorFn item (indexOf array item) σ = (Throw e, σ')) /\
  (forall e, pc s' = Failed e -> exists i, ret s' !! i = Some (Rejected e)).
Proof.
  intros Hstep [Hret Hpc]. destruct ev as [| j | j | j | j]; cbn [step] in Hstep.
  - unfold step_main in Hstep. destruct (pc s) as [| raced | | vs | e] eqn:Hc; try discriminate.
    + destruct (array !! length (ret s)); inversion Hstep; subst; [| by split].
      assert (Hr : ret (loop_body poolLimit array s) = ret s ++ [Scheduled])
        by (unfold loop_body; repeat case_bool_decide; reflexivity).
      split.
      * intros i e Hi. rewrite Hr in Hi.
        apply lookup_snoc_Some in Hi as [[_ Hi] | [_ Hi]]; [eauto | discriminate].
      * intros e. unfold loop_body. repeat case_bool_decide; discriminate.
    + destruct (existsb _ raced); inversion Hstep; subst. by split.
    + destruct (values_of (ret s)); inversion Hstep; subst. by split.
  - unfold step_call in Hstep.
    destruct (ret s !! j) as [[| | v | e]|] eqn:Hj; inversion Hstep; subst; simpl.
    split.
    + intros i e Hi. destruct (decide (j = i)) as [-> | Hne].
      * rewrite list_lookup_insert_eq in Hi by (by eapply lookup_lt_Some). discriminate.
      * rewrite list_lookup_insert_ne in Hi by done. eauto.
    + intros e He. destruct (Hpc e He) as [i Hi]. exists i.
      rewrite list_lookup_insert_ne; [done |]. intros ->. congruence.
  - unfold step_settle in Hstep.
    destruct (ret s !! j) as [[| | v | e]|] eqn:Hj; try discriminate.
    destruct (array !! j) as [item|] eqn:Hitem; try discriminate.
    destruct (iteratorFn item (indexOf array item) (shared s)) as [[v | e |] σ] eqn:Hf;
      inversion Hstep; subst; simpl.
    + split.
      * intros i e Hi. destruct (decide (j = i)) as [-> | Hne].
        -- rewrite list_lookup_insert_eq in Hi by (by eapply lookup_lt_Some). discriminate.
        -- rewrite list_lookup_insert_ne in Hi by done. eauto.
      * intros e He. destruct (Hpc e He) as [i Hi]. exists i.
        rewrite list_lookup_insert_ne; [done |]. intros ->. congruence.
    + split.
      * intros i e' Hi. destruct (decide (j = i)) as [-> | Hne].
        -- rewrite list_lookup_insert_eq in Hi by (by eapply lookup_lt_Some).
           inversion Hi; subst. eauto 6.
        -- rewrite list_lookup_insert_ne in Hi by done. eauto.
      * intros e' He. destruct (Hpc e' He) as [i Hi]. exists i.
        rewrite list_lookup_insert_ne; [done |]. intros ->. congruence.
  - unfold step_splice in Hstep.
    destruct (ret s !! j) as [[| | v | e]|]; try discriminate.
    case_bool_decide; inversion Hstep; subst. by split.
  - unfold step_raise in Hstep.
    destruct (ret s !! j) as [[| | v | e]|] eqn:Hj; try discriminate.
    destruct (pc s) eqn:Hc; try discriminate.
    + case_bool_decide; inversion Hstep; subst. simpl. split; [done |].
      intros e' He. inversion He; subst. eauto.
    + inversion Hstep; subst. simpl. split; [done |].
      intros e' He. inversion He; subst. eauto.
Qed.

Lemma rejection_exec sched : forall s s',
  execP sched s = Some s' ->
  (forall i e, ret s !! i = Some (Rejected e) ->
     exists item σ σ', array !! i = Some item /\
       iteratorFn item (indexOf array item) σ = (Throw e, σ')) /\
  (forall e, pc s = Failed e -> exists i, ret s !! i = Some (Rejected e)) ->
  (forall i e, ret s' !! i = Some (Rejected e) ->
     exists item σ σ', array !! i = Some item /\
       iteratorFn item (indexOf array item) σ = (Throw e, σ')) /\
  (forall e, pc s' = Failed e -> exists i, ret s' !! i = Some (Rejected e)).
Proof.
  induction sched as [|ev sched IH]; intros s s' Hex Hinv; simpl in Hex.
  - by inversion Hex; subst.
  - destruct (stepP ev s) as [s1|] eqn:Hs; [| discriminate].
    eapply IH; [exact Hex |]. eapply rejection_step; eauto.
Qed.
End PoolEdges.

(** X5. With a limit above the length of the list asyncPool does not
    throttle: [executing] stays empty and the body never waits for a race,
    so that it takes in the whole list in as many steps as there are items,
    before any task has run. *)
Theorem asyncPool_unthrottled_above_length
    {A R St : Type} `{EqDecision A} (poolLimit : nat) (array : list A)
    (iteratorFn : A -> Z -> St -> outcome R * St) (σ : St) :
  (length array < poolLimit)%nat ->
  (forall sched s, exec poolLimit array iteratorFn sched (pool_init σ) = Some s ->
     executing s = [] /\ forall raced, pc s <> AwaitRace raced) /\
  exec poolLimit array iteratorFn (replicate (length array) Main) (pool_init σ) =
    Some (mkPool (replicate (length array) Scheduled) [] AtLoop σ).
Proof.
  intros Hlim. split.
  - intros sched s Hex. split.
    + apply (inv_untracked poolLimit array iteratorFn s); [| exact Hlim].
      apply (pool_inv_exec poolLimit array iteratorFn sched _ _ (pool_inv_init _ _ _ σ) Hex).
    + apply (unthrottled_exec poolLimit array iteratorFn sched _ _ Hlim) with (2 := Hex).
      discriminate.
  - by apply unthrottled_intake.
Qed.

Lemma asyncPool_unthrottled_above_length_witness :
  exec 15 [10; 20; 30] sum_task [Main; Main; Main] (pool_init 0%nat) =
    Some (mkPool [Scheduled; Scheduled; Scheduled] [] AtLoop 0%nat).
Proof.
  exact (proj2 (asyncPool_unthrottled_above_length 15 [10; 20; 30] sum_task 0%nat
                  ltac:(simpl; lia))).
Defined.

(** X6. When asyncPool raises, the error is one that a task raised: the
    task called for some item of the list, with the index of that item,
    rejected with this very message. *)
Theorem asyncPool_raises_a_task_error
    {A R St : Type} `{EqDecision A} (poolLimit : nat) (array : list A)
    (iteratorFn : A -> Z -> St -> outcome R * St) (σ : St) sched e σ' :
  asyncPool poolLimit array iteratorFn sched σ = (Throw e, σ') ->
  exists i item σ1 σ2, array !! i = Some item /\
    iteratorFn item (indexOf array item) σ1 = (Throw e, σ2).
Proof.
  unfold asyncPool. destruct (exec _ _ _ sched _) as [s|] eqn:Hex; [| discriminate].
  destruct (rejection_exec poolLimit array iteratorFn sched _ _ Hex) as [Hret Hpc].
  { split; [intros i e0 Hi; destruct i; discriminate | discriminate]. }
  destruct (pc s) as [| raced | | vs | e0] eqn:Hc; intros Heq; inversion Heq; subst.
  destruct (Hpc e eq_refl) as [i Hi].
  destruct (Hret i e Hi) as (item & σ1 & σ2 & Hitem & Htask). eauto 6.
Qed.

Lemma asyncPool_raises_a_task_error_witness :
  exists i item σ1 σ2, [10; 20] !! i = Some item /\
    failing_task item (indexOf [10; 20] item) σ1 = (Throw "boom", σ2).
Proof.
  exact (asyncPool_raises_a_task_error 1 [10; 20] failing_task 0%nat
           [Main; Call 0; Settle 0; Raise 0] "boom" 1%nat eq_refl).
Defined.

Lemma indexOf_from_first {A : Type} `{EqDecision A} (l : list A) (x : A) : forall i z,
  l !! i = Some x ->
  exists k : nat, indexOf_from z l x = z + Z.of_nat k /\ (k <= i)%nat /\ l !! k = Some x /\
    forall j, (j < k)%nat -> l !! j <> Some x.
Proof.
  induction l as [|y l IH]; intros i z Hi; [discriminate |].
  cbn [indexOf_from]. destruct (decide (y = x)) as [-> | Hne].
  - exists 0%nat. split; [lia |]. split; [lia |]. split; [reflexivity |]. intros j Hj. lia.
  - destruct i as [|i]; [simpl in Hi; congruence |]. simpl in Hi.
    destruct (IH i (z + 1) Hi) as (k & Hk & Hle & Hlk & Hfirst).
    exists (S k). split; [lia |]. split; [lia |]. split; [exact Hlk |].
    intros [|j] Hj; simpl; [congruence | apply Hfirst; lia].
Qed.

(** X7. The index a task is called with is [array.indexOf(item)], the
    first position at which its item occurs: in a pool that resolved, the
    value at position [i] was returned by the task called with the item at
    [i] and the first position [k <= i] of this item, which is [i] itself
    when the items of the list are pairwise different. *)
Theorem asyncPool_task_index
    {A R St : Type} `{EqDecision A} (poolLimit : nat) (array : list A)
    (iteratorFn : A -> Z -> St -> outcome R * St) (σ : St) sched vs σ' :
  asyncPool poolLimit array iteratorFn sched σ = (Return vs, σ') ->
  forall i v item, vs !! i = Some v -> array !! i = Some item ->
  exists (k : nat) σ1 σ2,
    iteratorFn item (Z.of_nat k) σ1 = (Return v, σ2) /\
    (k <= i)%nat /\ array !! k = Some item /\
    (forall j, (j < k)%nat -> array !! j <> Some item) /\
    (NoDup array -> k = i).
Proof.
  unfold asyncPool. destruct (exec _ _ _ sched _) as [s|] eqn:Hex; [| discriminate].
  pose proof (pool_inv_exec poolLimit array iteratorFn sched _ _
                (pool_inv_init poolLimit array iteratorFn σ) Hex) as HI.
  pose proof (inv_pc _ _ _ _ HI) as Hc.
  destruct (pc s) as [| raced | | vs0 | e]; intros Heq; inversion Heq; subst.
  destruct Hc as [Hvs _]. apply values_of_Some in Hvs as [_ Hall].
  intros i v item Hv Hitem.
  destruct (inv_values _ _ _ _ HI i v) as (item' & σ1 & σ2 & Hitem' & Htask).
  { by rewrite Hall, Hv. }
  assert (item' = item) by congruence. subst item'.
  destruct (indexOf_from_first array item i 0 Hitem) as (k & Hk & Hle & Hlk & Hfirst).
  unfold indexOf in Htask. rewrite Hk, Z.add_0_l in Htask.
  exists k, σ1, σ2. repeat split; try done.
  intros Hnd. by apply (NoDup_lookup array k i item).
Qed.

Lemma asyncPool_task_index_witness :
  exists (k : nat) σ1 σ2,
    sum_task 10 (Z.of_nat k) σ1 = (Return 11, σ2) /\ (k <= 2)%nat.
Proof.
  assert (Hrun : asyncPool 5 [20; 10; 10] sum_task
            [Main; Main; Main; Main; Call 0; Call 1; Call 2; Settle 0; Settle 1; Settle 2; Main]
            0%nat = (Return [20; 11; 11], 3%nat)) by reflexivity.
  destruct (asyncPool_task_index 5 [20; 10; 10] sum_task 0%nat _ _ _ Hrun 2%nat 11 10
              eq_refl eq_refl) as (k & σ1 & σ2 & Htask & Hle & _).
  by exists k, σ1, σ2.
Defined.

Section EmptyPool.
Context {A R St : Type} `{EqDecision A}.
Variable poolLimit : nat.
Variable iteratorFn : A -> Z -> St -> outcome R * St.

Lemma empty_pool_step ev (s s' : pool R St) :
  step poolLimit [] iteratorFn ev s = Some s' ->
  ret s = [] -> (forall e, pc s <> Failed e) -> (forall vs, pc s = Resolved vs -> vs = []) ->
  ret s' = [] /\ shared s' = shared s /\ (forall e, pc s' <> Failed e) /\
  (forall vs, pc s' = Resolved vs -> vs = []).
Proof.
  intros Hstep Hret Hnf Hres. destruct ev as [| j | j | j | j]; cbn [step] in Hstep.
  - unfold step_main in Hstep. rewrite Hret in Hstep. simpl in Hstep.
    destruct (pc s) as [| raced | | vs | e] eqn:Hc; try discriminate.
    + inversion Hstep; subst. simpl. done.
    + destruct (existsb _ raced); inversion Hstep; subst. simpl. done.
    + inversion Hstep; subst. simpl. repeat split; try done. intros vs Hvs. congruence.
  - unfold step_call in Hstep. rewrite Hret in Hstep. discriminate.
  - unfold step_settle in Hstep. rewrite Hret in Hstep. discriminate.
  - unfold step_splice in Hstep. rewrite Hret in Hstep. discriminate.
  - unfold step_raise in Hstep. rewrite Hret in Hstep. discriminate.
Qed.

Lemma empty_pool_exec sched : forall (s s' : pool R St),
  exec poolLimit [] iteratorFn sched s = Some s' ->
  ret s = [] -> (forall e, pc s <> Failed e) -> (forall vs, pc s = Resolved vs -> vs = []) ->
  shared s' = shared s /\ (forall e, pc s' <> Failed e) /\
  (forall vs, pc s' = Resolved vs -> vs = []).
Proof.
  induction sched as [|ev sched IH]; intros s s' Hex Hret Hnf Hres; simpl in Hex.
  - by inversion Hex; subst.
  - destruct (step poolLimit [] iteratorFn ev s) as [s1|] eqn:Hs; [| discriminate].
    destruct (empty_pool_step ev s s1 Hs Hret Hnf Hres) as (Hret1 & Hsh1 & Hnf1 & Hres1).
    destruct (IH s1 s' Hex Hret1 Hnf1 Hres1) as (Hsh & Hnf' & Hres').
    split; [congruence | by split].
Qed.
End EmptyPool.

(** X8. On an empty list, whatever the limit, asyncPool resolves with the
    empty list as soon as its body has run, without calling the task: no
    schedule makes it raise or changes the shared state. *)
Theorem asyncPool_empty_list
    {A R St : Type} `{EqDecision A} (poolLimit : nat)
    (iteratorFn : A -> Z -> St -> outcome R * St) (σ : St) :
  asyncPool poolLimit [] iteratorFn [Main; Main] σ = (Return [], σ) /\
  forall sched r σ', asyncPool poolLimit [] iteratorFn sched σ = (r, σ') ->
    σ' = σ /\ (r = Return [] \/ r = Pending).
Proof.
  split; [reflexivity |].
  intros sched r σ'. unfold asyncPool.
  destruct (exec _ _ _ sched _) as [s|] eqn:Hex.
  - destruct (empty_pool_exec poolLimit iteratorFn sched _ _ Hex) as (Hsh & Hnf & Hres);
      [done | discriminate | discriminate |].
    simpl in Hsh. destruct (pc s) as [| raced | | vs | e] eqn:Hc;
      intros Heq; inversion Heq; subst; try (split; [done | by right]).
    + rewrite (Hres vs eq_refl). split; [done | by left].
    + by destruct (Hnf e).
  - intros Heq; inversion Heq; subst. split; [done | by right].
Qed.

(** ** More on the ranking *)

Lemma sort_insert_head {T : Type} (cmp : T -> T -> Z) x l :
  HdRel (fun a b => cmp a b <= 0) x l -> sort_insert cmp x l = x :: l.
Proof.
  intros Hhd. destruct l as [|y l]; [reflexivity |].
  inversion Hhd; subst. simpl.
  by rewrite (proj2 (Z.leb_le _ _)).
Qed.

(** A list that is in the order of the comparator is left as it is. *)
Lemma js_sort_sorted {T : Type} (cmp : T -> T -> Z) l :
  Sorted (fun a b => cmp a b <= 0) l -> js_sort cmp l = l.
Proof.
  induction 1 as [|x l Hs IH Hhd]; [reflexivity |].
  unfold js_sort in *. simpl. rewrite IH. by apply sort_insert_head.
Qed.

(** X9. The sort of the engine being stable, members with equal scores
    stay in the order of the roster: when all the scores of a ranking are
    equal (all 0, say), the names come in roster order. *)
Theorem ranking_keeps_roster_order_on_ties up fuel sched communityId w ranked w' members :
  processCommunity up fuel sched communityId w = (Return ranked, w') ->
  (fetchAllMembers up fuel communityId w).1 = Return members ->
  (forall a b, a ∈ ranked -> b ∈ ranked -> rap a = rap b) ->
  map r_username ranked = map username members.
Proof.
  intros Hrun Hmembers Hties. unfold processCommunity in Hrun.
  apply processCommunity_with_returns in Hrun as (members' & rr & Hm' & _ & -> & _).
  assert (members' = members) by congruence. subst members'.
  assert (Hsorted : Sorted (fun a b => by_rap_desc a b <= 0) (map (rank_entry rr) members)).
  { assert (Hall : forall a b, a ∈ map (rank_entry rr) members ->
                     b ∈ map (rank_entry rr) members -> rap a = rap b).
    { intros a b Ha Hb. apply Hties; by rewrite js_sort_perm. }
    clear Hties. induction (map (rank_entry rr) members) as [|x l IH]; [constructor |].
    constructor.
    - apply IH. intros a b Ha Hb. apply Hall; by right.
    - destruct l as [|y l]; constructor. unfold by_rap_desc.
      rewrite (Hall x y); [lia | by left | right; by left]. }
  rewrite (js_sort_sorted _ _ Hsorted), map_map. reflexivity.
Qed.

Lemma ranking_keeps_roster_order_on_ties_witness :
  map r_username [{| r_username := "D"; rap := 0 |}; {| r_username := "E"; rap := 0 |}] =
  map username [{| userId := 4; username := "D" |}; {| userId := 5; username := "E" |}].
Proof.
  assert (Hrun : processCommunity patchy 3
            [Main; Main; Main; Call 1; Call 0; Settle 1; Settle 0; Main] "8" fresh_world =
          (Return [{| r_username := "D"; rap := 0 |}; {| r_username := "E"; rap := 0 |}],
           storage_set "8" [{| r_username := "D"; rap := 0 |}; {| r_username := "E"; rap := 0 |}]
             {| storage := storage fresh_world; writes := 0;
                netlog := [members_url "8" ""; collectibles_url 5 ""; collectibles_url 4 ""] |}))
    by reflexivity.
  refine (ranking_keeps_roster_order_on_ties patchy 3 _ "8" fresh_world _ _ _ Hrun eq_refl _).
  assert (Hzero : forall x : Ranked,
            x ∈ [{| r_username := "D"; rap := 0 |}; {| r_username := "E"; rap := 0 |}] ->
            rap x = 0).
  { intros x Hx. apply elem_of_cons in Hx as [-> | Hx]; [reflexivity |].
    apply elem_of_cons in Hx as [-> | Hx]; [reflexivity | inversion Hx]. }
  intros a b Ha Hb. by rewrite (Hzero a Ha), (Hzero b Hb).
Defined.

(** ** The link parser *)

Lemma string_app_cons a s t : String a s +:+ t = String a (s +:+ t).
Proof. reflexivity. Qed.

Lemma string_app_nil_l s : "" +:+ s = s.
Proof. reflexivity. Qed.

Lemma string_app_assoc s t u : (s +:+ t) +:+ u = s +:+ t +:+ u.
Proof.
  induction s as [|a s IH]; [reflexivity |].
  rewrite !string_app_cons, IH. reflexivity.
Qed.

Lemma span_digits_spec s :
  s = (span_digits s).1 +:+ (span_digits s).2 /\
  digits_only (span_digits s).1 = true /\
  starts_with_digit (span_digits s).2 = false.
Proof.
  induction s as [|c s (IH1 & IH2 & IH3)]; [done |].
  cbn [span_digits]. destruct (is_digit c) eqn:Hc.
  - destruct (span_digits s) as [d rest]. simpl in *.
    rewrite string_app_cons, <- IH1, Hc, IH2. done.
  - simpl. rewrite Hc. done.
Qed.

Lemma span_digits_app d rest :
  digits_only d = true -> starts_with_digit rest = false ->
  span_digits (d +:+ rest) = (d, rest).
Proof.
  intros Hd Hrest. induction d as [|c d IH].
  - rewrite string_app_nil_l. destruct rest as [|c rest]; [reflexivity |].
    simpl in *. by rewrite Hrest.
  - simpl in Hd. apply andb_true_iff in Hd as [Hc Hd].
    rewrite string_app_cons. cbn [span_digits]. rewrite Hc, (IH Hd). reflexivity.
Qed.

Lemma skip_literal_spec ignoreCase literal : forall s rest,
  skip_literal ignoreCase literal s = Some rest ->
  exists m, s = m +:+ rest /\ String.length m = String.length literal.
Proof.
  induction literal as [|a literal IH]; intros s rest Hs.
  - simpl in Hs. inversion Hs; subst. by exists "".
  - destruct s as [|b s]; [discriminate |]. simpl in Hs.
    destruct (char_matches ignoreCase a b); [| discriminate].
    destruct (IH s rest Hs) as (m & -> & Hlen).
    exists (String b m). split; [reflexivity | simpl; by rewrite Hlen].
Qed.

Lemma first_match_spec attempt s : forall d,
  first_match attempt s = Some d ->
  exists pre suffix, s = pre +:+ suffix /\ attempt suffix = Some d.
Proof.
  induction s as [|c s IH]; intros d Hd; simpl in Hd.
  - destruct (attempt "") eqn:Ha; [| discriminate]. inversion Hd; subst. by exists "", "".
  - destruct (attempt (String c s)) eqn:Ha.
    + inversion Hd; subst. by exists "", (String c s).
    + destruct (IH d Hd) as (pre & suffix & -> & Hs).
      exists (String c pre), suffix. done.
Qed.

Lemma first_match_skip attempt c s :
  attempt (String c s) = None -> first_match attempt (String c s) = first_match attempt s.
Proof. intros Ha. simpl. by rewrite Ha. Qed.

Lemma first_match_here attempt s d :
  attempt s = Some d -> first_match attempt s = Some d.
Proof. intros Ha. destruct s; simpl; by rewrite Ha. Qed.

Lemma literal_digits_sound ignoreCase literal s d :
  literal_digits ignoreCase literal s = Some d ->
  d <> "" /\ digits_only d = true /\ exists pre post, s = pre +:+ d +:+ post.
Proof.
  unfold literal_digits. destruct (skip_literal ignoreCase literal s) as [rest|] eqn:Hs;
    [| discriminate].
  destruct (skip_literal_spec _ _ _ _ Hs) as (m & -> & _).
  destruct (span_digits_spec rest) as (Hrest & Hd & _).
  intros Heq. destruct (span_digits rest).1 as [|c d'] eqn:Hspan; simpl in Heq;
    [discriminate |].
  inversion Heq; subst. split; [discriminate |]. split; [exact Hd |].
  exists m, (span_digits rest).2. by rewrite <- Hrest.
Qed.

Lemma slash_digits_slash_sound s d :
  slash_digits_slash s = Some d ->
  (3 <= String.length d)%nat /\ digits_only d = true /\
  exists pre post, s = pre +:+ d +:+ post.
Proof.
  unfold slash_digits_slash. destruct (skip_literal false "/" s) as [rest|] eqn:Hs;
    [| discriminate].
  destruct (skip_literal_spec _ _ _ _ Hs) as (m & -> & _).
  destruct (span_digits_spec rest) as (Hrest & Hd & _).
  destruct (span_digits rest) as [d' after]. cbn [fst snd] in *. intros Heq.
  destruct (3 <=? String.length d')%nat eqn:Hlen; [| discriminate].
  destruct (skip_literal false "/" after); [| discriminate].
  inversion Heq; subst. apply Nat.leb_le in Hlen.
  split; [exact Hlen |]. split; [exact Hd |]. by exists m, after.
Qed.

Lemma first_match_sound attempt link d :
  (forall s, attempt s = Some d ->
     d <> "" /\ digits_only d = true /\ exists pre post, s = pre +:+ d +:+ post) ->
  first_match attempt link = Some d ->
  d <> "" /\ digits_only d = true /\ exists pre post, link = pre +:+ d +:+ post.
Proof.
  intros Hattempt Hm. destruct (first_match_spec _ _ _ Hm) as (pre & suffix & -> & Ha).
  destruct (Hattempt _ Ha) as (Hne & Hd & pre' & post & ->).
  split; [exact Hne |]. split; [exact Hd |].
  exists (pre +:+ pre'), post. by rewrite string_app_assoc.
Qed.

Lemma extractCommunityId_found link id :
  extractCommunityId link = Some id ->
  id <> "" /\ digits_only id = true /\ exists pre post, link = pre +:+ id +:+ post.
Proof.
  unfold extractCommunityId. case_bool_decide; [discriminate |].
  destruct (communitiesMatch link) as [d|] eqn:Hc.
  { intros Heq; inversion Heq; subst.
    apply (first_match_sound _ _ _ (fun s => literal_digits_sound _ _ s id) Hc). }
  destruct (groupsMatch link) as [d|] eqn:Hg.
  { intros Heq; inversion Heq; subst.
    apply (first_match_sound _ _ _ (fun s => literal_digits_sound _ _ s id) Hg). }
  intros Hgen. apply (first_match_sound slash_digits_slash); [| exact Hgen].
  intros s Hs. destruct (slash_digits_slash_sound s id Hs) as (Hlen & Hd & Hsub).
  split; [| by split]. intros ->. simpl in Hlen. lia.
Qed.

Lemma has_digit_app s t : has_digit (s +:+ t) = has_digit s || has_digit t.
Proof.
  induction s as [|c s IH]; [reflexivity |].
  rewrite string_app_cons. simpl. by rewrite IH, orb_assoc.
Qed.

Lemma digits_only_has_digit d : d <> "" -> digits_only d = true -> has_digit d = true.
Proof.
  destruct d as [|c d]; [done |]. simpl. intros _ Hd.
  apply andb_true_iff in Hd as [-> _]. reflexivity.
Qed.

Lemma extractCommunityId_no_digit link :
  has_digit link = false -> extractCommunityId link = None.
Proof.
  intros Hno. destruct (extractCommunityId link) as [id|] eqn:Hid; [| reflexivity].
  destruct (extractCommunityId_found link id Hid) as (Hne & Hd & pre & post & ->).
  rewrite !has_digit_app, (digits_only_has_digit id Hne Hd) in Hno.
  by rewrite orb_true_r in Hno.
Qed.

(** X10. Whatever the link, an identifier that extractCommunityId returns
    is a non-empty string of decimal digits that occurs in the link; as a
    stored identifier it passes the truthiness test of the listener. *)
Theorem extractCommunityId_sound link id :
  extractCommunityId link = Some id ->
  id <> "" /\ digits_only id = true /\ (exists pre post, link = pre +:+ id +:+ post) /\
  truthy (Some id) = true.
Proof.
  intros Hid. destruct (extractCommunityId_found link id Hid) as (Hne & Hd & Hsub).
  repeat split; try done. by apply truthy_Some.
Qed.

Lemma extractCommunityId_sound_witness :
  extractCommunityId "https://example.com/12/1234/about" = Some "1234" /\
  "1234" <> "" /\ digits_only "1234" = true /\ truthy (Some "1234") = true.
Proof.
  split; [reflexivity |].
  destruct (extractCommunityId_sound "https://example.com/12/1234/about" "1234" eq_refl)
    as (Hne & Hd & _ & Ht).
  done.
Defined.

Lemma digit_not_letter c :
  is_digit c = true ->
  char_matches true "c" c = false /\ char_matches true "g" c = false /\
  char_matches false "/" c = false.
Proof.
  destruct c as [[] [] [] [] [] [] [] []]; intros Hc; try discriminate Hc;
    repeat split; reflexivity.
Qed.

Lemma literal_digits_at_digit literal c s :
  is_digit c = true ->
  (literal = "communities/" \/ literal = "groups/") ->
  literal_digits true literal (String c s) = None.
Proof.
  intros Hc Hl. destruct (digit_not_letter c Hc) as (Hcc & Hg & _).
  unfold literal_digits. destruct Hl as [-> | ->]; cbn [skip_literal]; by rewrite ?Hcc, ?Hg.
Qed.

(** No attempt of a literal pattern succeeds inside a run of digits. *)
Lemma first_match_through_digits literal d : forall rest,
  digits_only d = true ->
  (literal = "communities/" \/ literal = "groups/") ->
  first_match (literal_digits true literal) (d +:+ rest) =
  first_match (literal_digits true literal) rest.
Proof.
  induction d as [|c d IH]; intros rest Hd Hl; [reflexivity |].
  simpl in Hd. apply andb_true_iff in Hd as [Hc Hd].
  rewrite string_app_cons, first_match_skip by (by apply literal_digits_at_digit).
  by apply IH.
Qed.

Lemma literal_digits_here literal id rest :
  id <> "" -> digits_only id = true -> starts_with_digit rest = false ->
  skip_literal true literal (literal +:+ id +:+ rest) = Some (id +:+ rest) ->
  literal_digits true literal (literal +:+ id +:+ rest) = Some id.
Proof.
  intros Hne Hd Hrest Hskip. unfold literal_digits. rewrite Hskip.
  rewrite (span_digits_app id rest Hd Hrest). simpl. by destruct id.
Qed.

(** Bringing an append of a literal to the front of a string into the
    form of its first character and the rest. *)
Ltac string_head := rewrite ?string_app_cons, ?string_app_nil_l.

(** X11. A link of the new format, [https://www.roblox.com/communities/ID]
    followed by anything that does not begin with a digit (a slash and the
    name, or nothing), gives back [ID], for every non-empty string of
    digits [ID]. *)
Theorem extractCommunityId_communities_link id rest :
  id <> "" -> digits_only id = true -> starts_with_digit rest = false ->
  extractCommunityId ("https://www.roblox.com/communities/" +:+ id +:+ rest) = Some id.
Proof.
  intros Hne Hd Hrest. unfold extractCommunityId.
  rewrite bool_decide_eq_false_2 by discriminate.
  assert (Hhere : literal_digits true "communities/" ("communities/" +:+ id +:+ rest) = Some id)
    by (by apply literal_digits_here).
  unfold communitiesMatch. revert Hhere. generalize (id +:+ rest). intros tail Hhere.
  string_head. revert Hhere. string_head. intros Hhere.
  do 23 (rewrite first_match_skip by reflexivity).
  by rewrite (first_match_here _ _ _ Hhere).
Qed.

Lemma extractCommunityId_communities_link_witness :
  extractCommunityId "https://www.roblox.com/communities/12345/My-Group#!/about" = Some "12345".
Proof.
  exact (extractCommunityId_communities_link "12345" "/My-Group#!/about"
           ltac:(discriminate) eq_refl eq_refl).
Defined.

(** X12. A link of the legacy format, [https://www.roblox.com/groups/ID]
    followed by anything that does not begin with a digit, gives back
    [ID], provided no community identifier is found in what follows. *)
Theorem extractCommunityId_groups_link id rest :
  id <> "" -> digits_only id = true -> starts_with_digit rest = false ->
  communitiesMatch rest = None ->
  extractCommunityId ("https://www.roblox.com/groups/" +:+ id +:+ rest) = Some id.
Proof.
  intros Hne Hd Hrest Hnone. unfold extractCommunityId.
  rewrite bool_decide_eq_false_2 by discriminate.
  assert (Hcomm : communitiesMatch ("https://www.roblox.com/groups/" +:+ id +:+ rest) = None).
  { unfold communitiesMatch in *.
    pose proof (first_match_through_digits "communities/" id rest Hd (or_introl eq_refl)) as Hskip.
    rewrite Hnone in Hskip. revert Hskip. generalize (id +:+ rest). intros tail Hskip.
    string_head. do 30 (rewrite first_match_skip by reflexivity). exact Hskip. }
  rewrite Hcomm.
  assert (Hhere : literal_digits true "groups/" ("groups/" +:+ id +:+ rest) = Some id)
    by (by apply literal_digits_here).
  unfold groupsMatch. revert Hhere. generalize (id +:+ rest). intros tail Hhere.
  string_head. revert Hhere. string_head. intros Hhere.
  do 23 (rewrite first_match_skip by reflexivity).
  by rewrite (first_match_here _ _ _ Hhere).
Qed.

Lemma extractCommunityId_groups_link_witness :
  extractCommunityId "https://www.roblox.com/groups/777/Old-Name" = Some "777".
Proof.
  exact (extractCommunityId_groups_link "777" "/Old-Name"
           ltac:(discriminate) eq_refl eq_refl eq_refl).
Defined.

(** ** The page *)

Lemma append_results_spec toLocaleString top : forall idx dom,
  append_results toLocaleString idx top dom =
  {| communityInput_value := communityInput_value dom;
     searchBtn_disabled := searchBtn_disabled dom;
     refreshBtn_disabled := refreshBtn_disabled dom;
     statusP_textContent := statusP_textContent dom;
     resultList_items :=
       resultList_items dom ++ imap (fun i => result_text toLocaleString (idx + i)) top |}.
Proof.
  induction top as [|entry top IH]; intros idx dom.
  - simpl. rewrite app_nil_r. by destruct dom.
  - cbn [append_results]. rewrite IH. simpl. f_equal.
    rewrite <- app_assoc. f_equal. simpl. rewrite Nat.add_0_r. f_equal.
    apply imap_ext. intros i x _. simpl. f_equal. lia.
Qed.

Lemma displayResults_items_status toLocaleString (list_ : list Ranked) dom :
  resultList_items (displayResults toLocaleString list_ dom) =
    imap (result_text toLocaleString) (take 100 list_) /\
  statusP_textContent (displayResults toLocaleString list_ dom) =
    (if bool_decide (list_ = []) then "No members or RAP data found."
     else "Showing top " +:+ pretty (Nat.min 100 (length list_)) +:+ " of " +:+
          pretty (length list_) +:+ " members.").
Proof.
  unfold displayResults. case_bool_decide as Hlen.
  - destruct list_; [| discriminate]. by rewrite bool_decide_eq_true_2.
  - rewrite bool_decide_eq_false_2 by (by intros ->).
    simpl. rewrite append_results_spec, length_take. simpl. split; [| done].
    apply imap_ext. intros i x _. reflexivity.
Qed.

(** X13. displayResults replaces the lines of the list by those of the
    first 100 entries, in order and numbered from 1, so that min(100, n)
    lines are shown for n entries; the status tells how many of how many,
    or that there is none; the buttons and the input are left alone. *)
Theorem displayResults_first_hundred toLocaleString (list_ : list Ranked) dom :
  resultList_items (displayResults toLocaleString list_ dom) =
    imap (result_text toLocaleString) (take 100 list_) /\
  length (resultList_items (displayResults toLocaleString list_ dom)) =
    Nat.min 100 (length list_) /\
  statusP_textContent (displayResults toLocaleString list_ dom) =
    (if bool_decide (list_ = []) then "No members or RAP data found."
     else "Showing top " +:+ pretty (Nat.min 100 (length list_)) +:+ " of " +:+
          pretty (length list_) +:+ " members.") /\
  searchBtn_disabled (displayResults toLocaleString list_ dom) = searchBtn_disabled dom /\
  refreshBtn_disabled (displayResults toLocaleString list_ dom) = refreshBtn_disabled dom /\
  communityInput_value (displayResults toLocaleString list_ dom) = communityInput_value dom.
Proof.
  destruct (displayResults_items_status toLocaleString list_ dom) as [Hitems Hstatus].
  split; [exact Hitems |]. split; [by rewrite Hitems, length_imap, length_take |].
  split; [exact Hstatus |].
  unfold displayResults. destruct (bool_decide (length list_ = 0%nat)); [done |].
  simpl. by rewrite append_results_spec.
Qed.

Lemma StronglySorted_app_elem {T : Type} (R : T -> T -> Prop) (l1 l2 : list T) x1 x2 :
  StronglySorted R (l1 ++ l2) -> x1 ∈ l1 -> x2 ∈ l2 -> R x1 x2.
Proof.
  induction l1 as [|y l1 IH]; intros Hs H1 H2; [inversion H1 |].
  simpl in Hs. apply StronglySorted_inv in Hs as [Hs Hall].
  apply elem_of_cons in H1 as [-> | H1]; [| by apply IH].
  rewrite Forall_forall in Hall. apply Hall. apply elem_of_app. by right.
Qed.

(** X14. After a ranking run, the lines displayResults shows are those of
    the first 100 entries of the ranking, and no member left out of them
    has a higher score than a member shown. *)
Theorem shown_members_outrank_hidden toLocaleString up fuel sched communityId w ranked w' dom :
  processCommunity up fuel sched communityId w = (Return ranked, w') ->
  resultList_items (displayResults toLocaleString ranked dom) =
    imap (result_text toLocaleString) (take 100 ranked) /\
  forall shown hidden,
    shown ∈ take 100 ranked -> hidden ∈ drop 100 ranked -> rap hidden <= rap shown.
Proof.
  intros Hrun. split; [apply displayResults_items_status |].
  - unfold processCommunity in Hrun.
    apply processCommunity_with_returns in Hrun as (members & rr & _ & _ & -> & _).
    destruct (js_sort_sorts (map (rank_entry rr) members)) as [_ Hsorted].
    apply Sorted_rap_desc in Hsorted. intros shown hidden Hs Hh.
    rewrite <- (take_drop 100 (js_sort by_rap_desc (map (rank_entry rr) members))) in Hsorted.
    exact (StronglySorted_app_elem rap_desc _ _ shown hidden Hsorted Hs Hh).
Qed.

Lemma shown_members_outrank_hidden_witness :
  resultList_items (displayResults plain_number
      [{| r_username := "A"; rap := 15000 |}; {| r_username := "B"; rap := 12000 |}]
      (blank_popup "")) = ["#1 A - RAP: 15000"; "#2 B - RAP: 12000"].
Proof.
  assert (Hrun : processCommunity scenario 5
            [Main; Main; Main; Call 0; Call 1; Settle 0; Settle 1; Main] "42" fresh_world =
          (Return [{| r_username := "A"; rap := 15000 |}; {| r_username := "B"; rap := 12000 |}],
           storage_set "42"
             [{| r_username := "A"; rap := 15000 |}; {| r_username := "B"; rap := 12000 |}]
             {| storage := storage fresh_world; writes := 0;
                netlog := [members_url "42" ""; members_url "42" "c1";
                           collectibles_url 1 ""; collectibles_url 2 ""] |}))
    by reflexivity.
  exact (proj1 (shown_members_outrank_hidden plain_number scenario 5 _ "42" fresh_world _ _
                  (blank_popup "") Hrun)).
Defined.

(** X15. For a link without any digit, the click on the search button
    only sets the status to "Invalid community link.": no message is sent,
    so nothing is fetched or stored, and the buttons and the list stay as
    they are. *)
Theorem searchBtn_click_invalid_link trim toLocaleString up fuel sched lastError dom w :
  has_digit (trim (communityInput_value dom)) = false ->
  searchBtn_click trim toLocaleString up fuel sched lastError dom w =
    mkHandled true (setStatus "Invalid community link." dom) w.
Proof.
  intros Hno. unfold searchBtn_click. by rewrite (extractCommunityId_no_digit _ Hno).
Qed.

Lemma searchBtn_click_invalid_link_witness :
  searchBtn_click id_trim plain_number scenario 5 [] None (blank_popup "roblox") fresh_world =
    mkHandled true (setStatus "Invalid community link." (blank_popup "roblox")) fresh_world.
Proof.
  exact (searchBtn_click_invalid_link id_trim plain_number scenario 5 [] None
           (blank_popup "roblox") fresh_world eq_refl).
Defined.

(** X16. A click handler that talks to the worker disables both buttons
    and shows "Fetching data, please wait..." over the unchanged list while
    it waits, and has both buttons enabled once it has run to its end,
    whether the reply was a list, a failure or a broken channel: so for
    the search button, when the link holds an identifier, and for the
    refresh button. *)
Theorem click_handlers_toggle_buttons trim toLocaleString up fuel sched lastError dom w :
  (forall id, extractCommunityId (trim (communityInput_value dom)) = Some id ->
     buttons_follow dom (searchBtn_click trim toLocaleString up fuel sched lastError dom w)) /\
  buttons_follow dom (refreshBtn_click toLocaleString up fuel sched lastError dom w).
Proof.
  split.
  - intros id Hid. unfold searchBtn_click. rewrite Hid.
    destruct (fetchCommunityList up fuel sched lastError id w) as [[l | e |] w'];
      unfold buttons_follow; simpl; done.
  - unfold refreshBtn_click.
    destruct (refreshList up fuel sched lastError w) as [[l | e |] w'];
      unfold buttons_follow; simpl; done.
Qed.

Lemma click_handlers_toggle_buttons_witness :
  buttons_follow (blank_popup "https://www.roblox.com/communities/42/Fans")
    (searchBtn_click id_trim plain_number scenario 5 [Main] None
       (blank_popup "https://www.roblox.com/communities/42/Fans") fresh_world) /\
  handler_finished
    (searchBtn_click id_trim plain_number scenario 5 [Main] None
       (blank_popup "https://www.roblox.com/communities/42/Fans") fresh_world) = false.
Proof.
  split; [| reflexivity].
  exact (proj1 (click_handlers_toggle_buttons id_trim plain_number scenario 5 [Main] None
                  (blank_popup "https://www.roblox.com/communities/42/Fans") fresh_world)
           "42" eq_refl).
Defined.

(** X17. When the ranking run raises, the click on the search button ends
    with the status "Error: " followed by the message ("Unknown error" for
    an empty one), both buttons enabled, the list that was shown still
    shown, and the storage area as it was. *)
Theorem searchBtn_click_failure trim toLocaleString up fuel sched dom w id e w' :
  extractCommunityId (trim (communityInput_value dom)) = Some id ->
  processCommunity up fuel sched id w = (Throw e, w') ->
  searchBtn_click trim toLocaleString up fuel sched None dom w =
    mkHandled true
      {| communityInput_value := communityInput_value dom;
         searchBtn_disabled := false;
         refreshBtn_disabled := false;
         statusP_textContent :=
           "Error: " +:+ (if bool_decide (e = "") then "Unknown error" else e);
         resultList_items := resultList_items dom |} w' /\
  storage w' = storage w /\ writes w' = writes w.
Proof.
  intros Hid Hrun. split.
  - unfold searchBtn_click, fetchCommunityList. rewrite Hid. cbn [onMessage]. unfold respond.
    rewrite Hrun. reflexivity.
  - unfold processCommunity in Hrun.
    by apply (processCommunity_with_fails _ _ _ _ _ _ _ _ Hrun).
Qed.

Lemma searchBtn_click_failure_witness :
  statusP_textContent (handler_page
    (searchBtn_click id_trim plain_number scenario 5 [] None
       (blank_popup "https://www.roblox.com/groups/9") used_world)) =
    "Error: Failed to fetch members: 404".
Proof.
  assert (Hrun : processCommunity scenario 5 [] "9" used_world =
            (Throw "Failed to fetch members: 404", log_fetch (members_url "9" "") used_world))
    by reflexivity.
  destruct (searchBtn_click_failure id_trim plain_number scenario 5 []
              (blank_popup "https://www.roblox.com/groups/9") used_world "9" _ _ eq_refl Hrun)
    as [Hclick _].
  rewrite Hclick. reflexivity.
Defined.

(** X18. When the ranking run returns, the click on the search button
    shows the first 100 entries of the ranking, and a popup opened
    afterwards shows the same lines and the same status from the storage
    area, with the refresh button enabled. *)
Theorem reopened_popup_shows_last_results trim toLocaleString up fuel sched dom w id
    ranked w' dom0 :
  extractCommunityId (trim (communityInput_value dom)) = Some id ->
  processCommunity up fuel sched id w = (Return ranked, w') ->
  handler_world (searchBtn_click trim toLocaleString up fuel sched None dom w) = w' /\
  resultList_items (handler_page (searchBtn_click trim toLocaleString up fuel sched None dom w)) =
    imap (result_text toLocaleString) (take 100 ranked) /\
  resultList_items (on_load toLocaleString dom0 w') =
    resultList_items (handler_page (searchBtn_click trim toLocaleString up fuel sched None dom w)) /\
  statusP_textContent (on_load toLocaleString dom0 w') =
    statusP_textContent (handler_page (searchBtn_click trim toLocaleString up fuel sched None dom w)) /\
  refreshBtn_disabled (on_load toLocaleString dom0 w') = false.
Proof.
  intros Hid Hrun.
  assert (Hclick : searchBtn_click trim toLocaleString up fuel sched None dom w =
            mkHandled true
              (toggleLoading false (set_refresh_disabled false
                 (displayResults toLocaleString ranked (toggleLoading true dom)))) w').
  { unfold searchBtn_click, fetchCommunityList. rewrite Hid. cbn [onMessage]. unfold respond.
    rewrite Hrun. reflexivity. }
  unfold processCommunity in Hrun.
  apply processCommunity_with_returns in Hrun as (_ & _ & _ & _ & _ & Hst & _).
  rewrite Hclick. unfold on_load. rewrite Hst.
  pose proof (displayResults_items_status toLocaleString ranked (toggleLoading true dom)) as [H1 H2].
  pose proof (displayResults_items_status toLocaleString ranked dom0) as [H3 H4].
  cbn [handler_world handler_page lastResults].
  change (resultList_items (toggleLoading false (set_refresh_disabled false
            (displayResults toLocaleString ranked (toggleLoading true dom)))))
    with (resultList_items (displayResults toLocaleString ranked (toggleLoading true dom))).
  change (statusP_textContent (toggleLoading false (set_refresh_disabled false
            (displayResults toLocaleString ranked (toggleLoading true dom)))))
    with (statusP_textContent (displayResults toLocaleString ranked (toggleLoading true dom))).
  change (resultList_items (set_refresh_disabled false (displayResults toLocaleString ranked dom0)))
    with (resultList_items (displayResults toLocaleString ranked dom0)).
  change (statusP_textContent (set_refresh_disabled false
            (displayResults toLocaleString ranked dom0)))
    with (statusP_textContent (displayResults toLocaleString ranked dom0)).
  rewrite H1, H2, H3, H4. done.
Qed.

Lemma reopened_popup_shows_last_results_witness :
  resultList_items (on_load plain_number (blank_popup "")
    (handler_world (searchBtn_click id_trim plain_number scenario 5
       [Main; Main; Main; Call 0; Call 1; Settle 0; Settle 1; Main] None
       (blank_popup "https://www.roblox.com/communities/42/Fans") fresh_world))) =
    ["#1 A - RAP: 15000"; "#2 B - RAP: 12000"].
Proof.
  assert (Hrun : processCommunity scenario 5
            [Main; Main; Main; Call 0; Call 1; Settle 0; Settle 1; Main] "42" fresh_world =
          (Return [{| r_username := "A"; rap := 15000 |}; {| r_username := "B"; rap := 12000 |}],
           storage_set "42"
             [{| r_username := "A"; rap := 15000 |}; {| r_username := "B"; rap := 12000 |}]
             {| storage := storage fresh_world; writes := 0;
                netlog := [members_url "42" ""; members_url "42" "c1";
                           collectibles_url 1 ""; collectibles_url 2 ""] |}))
    by reflexivity.
  destruct (reopened_popup_shows_last_results id_trim plain_number scenario 5 _
              (blank_popup "https://www.roblox.com/communities/42/Fans") fresh_world "42" _ _
              (blank_popup "") eq_refl Hrun) as (Hw & Hitems & Hload & _).
  rewrite Hw, Hload, Hitems. reflexivity.
Defined.

(** X19. After a search that returned, the refresh asks the worker for
    the same community: what refreshList gives is what fetchCommunityList
    gives for the identifier of the search, whatever has changed
    upstream. *)
Theorem refresh_after_search trim up fuel sched dom w id ranked w' fuel2 sched2 lastError2 :
  extractCommunityId (trim (communityInput_value dom)) = Some id ->
  processCommunity up fuel sched id w = (Return ranked, w') ->
  forall up2,
    refreshList up2 fuel2 sched2 lastError2 w' =
    fetchCommunityList up2 fuel2 sched2 lastError2 id w'.
Proof.
  intros Hid Hrun up2.
  destruct (extractCommunityId_found _ _ Hid) as (Hne & _).
  unfold processCommunity in Hrun.
  apply processCommunity_with_returns in Hrun as (_ & _ & _ & _ & _ & Hst & _).
  unfold refreshList, fetchCommunityList. cbn [onMessage]. rewrite Hst.
  cbn [lastCommunityId default]. by rewrite (truthy_Some _ Hne).
Qed.

Lemma refresh_after_search_witness :
  refreshList patchy 3 [] None
    (storage_set "42"
       [{| r_username := "A"; rap := 15000 |}; {| r_username := "B"; rap := 12000 |}]
       {| storage := storage fresh_world; writes := 0;
          netlog := [members_url "42" ""; members_url "42" "c1";
                     collectibles_url 1 ""; collectibles_url 2 ""] |}) =
  fetchCommunityList patchy 3 [] None "42"
    (storage_set "42"
       [{| r_username := "A"; rap := 15000 |}; {| r_username := "B"; rap := 12000 |}]
       {| storage := storage fresh_world; writes := 0;
          netlog := [members_url "42" ""; members_url "42" "c1";
                     collectibles_url 1 ""; collectibles_url 2 ""] |}).
Proof.
  assert (Hrun : processCommunity scenario 5
            [Main; Main; Main; Call 0; Call 1; Settle 0; Settle 1; Main] "42" fresh_world =
          (Return [{| r_username := "A"; rap := 15000 |}; {| r_username := "B"; rap := 12000 |}],
           storage_set "42"
             [{| r_username := "A"; rap := 15000 |}; {| r_username := "B"; rap := 12000 |}]
             {| storage := storage fresh_world; writes := 0;
                netlog := [members_url "42" ""; members_url "42" "c1";
                           collectibles_url 1 ""; collectibles_url 2 ""] |}))
    by reflexivity.
  exact (refresh_after_search id_trim scenario 5 _
           (blank_popup "https://www.roblox.com/communities/42/Fans") fresh_world "42" _ _
           3%nat [] None eq_refl Hrun patchy).
Defined.
